(** * A model of the concurrent file tree walker of package [file]
    ([ConcurrentWalker] in walker.go, with the default excluders of
    walker_unix.go).

    The walk is modelled as a transition system.  A state ([walker]) holds
    the fields of the Go struct together with the goroutines that are alive:
    every goroutine running [walk] is a [task] carrying its program point,
    the channels are FIFO queues with their capacity, the [WaitGroup] is the
    list of live [walk] goroutines, and [process] and the goroutine that
    closes [pathInfoCh] are flags.  One [wstep] is one atomic action of one
    goroutine; any interleaving of them is a run.  The file system is a tree
    of [fnode]s, each carrying the outcome the OS gives for it. *)

From Stdlib Require Import List String Ascii Bool Arith Lia NArith Permutation.
Import ListNotations.

Local Set Warnings "-register-all".

(** ** The file system as the walker sees it *)

(** A node of the tree.  [info_ok] is whether [entry.Info()] succeeds for it
    (an [Lstat] on a listed entry can fail, e.g. when it vanished);
    [listing] is the result of [os.Open] + [ReadDir(-1)] on a directory:
    [None] when it fails, otherwise its entries in the order returned. *)
Inductive fnode : Type :=
| File (name : string) (info_ok : bool)
| Dir (name : string) (info_ok : bool) (listing : option (list fnode)).

(** fs.DirEntry.Name *)
Definition Name (e : fnode) : string :=
  match e with File n _ | Dir n _ _ => n end.

(** fs.DirEntry.IsDir *)
Definition IsDir (e : fnode) : bool :=
  match e with File _ _ => false | Dir _ _ _ => true end.

(** Whether fs.DirEntry.Info returns a nil error. *)
Definition InfoOk (e : fnode) : bool :=
  match e with File _ ok | Dir _ ok _ => ok end.

(** The directory read done by [workerReadDir] between acquiring and
    releasing its slot; reading a non-directory fails. *)
Definition read_dir (e : fnode) : option (list fnode) :=
  match e with File _ _ => None | Dir _ _ l => l end.

(** [startDirEntry{info}]: the entry built from [os.Lstat(root)]; its
    [Info()] always returns [(d.info, nil)]. *)
Definition startDirEntry (e : fnode) : fnode :=
  match e with
  | File n _ => File n true
  | Dir n _ l => Dir n true l
  end.

(** ** Errors, matchers and messages *)

(** The errors a [walk] goroutine sends on [errorCh]. *)
Inductive walk_error : Type :=
| ErrInfo (p : string)         (* "failure getting info for a path %q: %v" *)
| ErrDirExclude (p : string)   (* "failure checking if directory needs to be excluded %q: %v" *)
| ErrFileExclude (p : string)  (* "failure checking if file needs to be excluded %q: %v" *)
| ErrReadDir (p : string).     (* the error of os.Open or ReadDir in workerReadDir *)

(** Equality of errors is decidable; used to count them. *)
Definition walk_error_eq_dec (x y : walk_error) : {x = y} + {x <> y}.
Proof. decide equality; apply string_dec. Defined.

(** [PathExcluder.Match(path) (bool, error)]: [Some b] is [(b, nil)],
    [None] is a non-nil error. *)
Definition PathExcluder := string -> option bool.

(** [WalkDirFunc]: the visitor, [None] for a nil error. *)
Definition WalkDirFunc := string -> fnode -> option string.

(** [pathInfo] sent on [pathInfoCh]; the resolved [fileInfo] is the
    entry's own information and is kept as the entry. *)
Record pathInfo := mkPathInfo { pi_path : string; pi_entry : fnode }.

(** The program point of one goroutine running [walk].  [pos] is ghost
    state: the position of the node in the tree (indices into the listings
    from the root), used only to state ordering properties. *)
Inductive task : Type :=
| TWalk (pos : list nat) (p : string) (e : fnode)
    (* entry: about to call entry.Info() and the excluder *)
| TSendErr (pos : list nat) (err : walk_error)
    (* blocked on [w.errorCh <- err], then returns *)
| TPublish (pos : list nat) (p : string) (e : fnode)
    (* blocked on [w.pathInfoCh <- pathInfo{...}] *)
| TAcquire (pos : list nat) (p : string) (e : fnode)
    (* in workerReadDir: blocked on [workerSemaCh <- struct{}{}] *)
| TRead (pos : list nat) (p : string) (e : fnode)
    (* in workerReadDir holding a slot: os.Open, ReadDir, f.Close *)
| TSpawn (pos : list nat) (p : string) (k : nat) (cs : list fnode).
    (* in [for _, child := range children]; [k] is the index of the next child *)

(** The [ConcurrentWalker] struct plus the goroutines of the current walk.
    [workerSema] is [len(workerSemaCh)], [semaCap] and [pathCap] the
    capacities of [workerSemaCh] and [pathInfoCh]; [tasks] are the [walk]
    goroutines counted by [wg]; [monitoring] is the goroutine blocked in
    [wg.Wait()] before [close(w.pathInfoCh)]; [processing] is the [process]
    goroutine; [cancelled] is [ctx.Done()]; [errorWriter] is the list of
    errors printed to the error writer.  [visits] (the calls of [walkFunc],
    in order) and [published] (the sends on [pathInfoCh], with the ghost
    position) are traces. *)
Record walker := mkWalker {
  root : string;
  walkFunc : WalkDirFunc;
  errorWriter : list walk_error;
  semaCap : nat;
  workerSema : nat;
  pathCap : nat;
  pathInfoCh : list pathInfo;
  pathClosed : bool;
  errorCh : list walk_error;
  doneClosed : bool;
  tasks : list task;
  monitoring : bool;
  hadErrors : bool;
  inProgress : bool;
  dirExcluder : PathExcluder;
  fileExcluder : PathExcluder;
  processing : bool;
  cancelled : bool;
  visits : list string;
  published : list (list nat * string)
}.

Definition set_root (w : walker) x : walker :=
  mkWalker x (walkFunc w) (errorWriter w) (semaCap w) (workerSema w) (pathCap w) (pathInfoCh w) (pathClosed w) (errorCh w) (doneClosed w) (tasks w) (monitoring w) (hadErrors w) (inProgress w) (dirExcluder w) (fileExcluder w) (processing w) (cancelled w) (visits w) (published w).
Definition set_walkFunc (w : walker) x : walker :=
  mkWalker (root w) x (errorWriter w) (semaCap w) (workerSema w) (pathCap w) (pathInfoCh w) (pathClosed w) (errorCh w) (doneClosed w) (tasks w) (monitoring w) (hadErrors w) (inProgress w) (dirExcluder w) (fileExcluder w) (processing w) (cancelled w) (visits w) (published w).
Definition set_errorWriter (w : walker) x : walker :=
  mkWalker (root w) (walkFunc w) x (semaCap w) (workerSema w) (pathCap w) (pathInfoCh w) (pathClosed w) (errorCh w) (doneClosed w) (tasks w) (monitoring w) (hadErrors w) (inProgress w) (dirExcluder w) (fileExcluder w) (processing w) (cancelled w) (visits w) (published w).
Definition set_semaCap (w : walker) x : walker :=
  mkWalker (root w) (walkFunc w) (errorWriter w) x (workerSema w) (pathCap w) (pathInfoCh w) (pathClosed w) (errorCh w) (doneClosed w) (tasks w) (monitoring w) (hadErrors w) (inProgress w) (dirExcluder w) (fileExcluder w) (processing w) (cancelled w) (visits w) (published w).
Definition set_workerSema (w : walker) x : walker :=
  mkWalker (root w) (walkFunc w) (errorWriter w) (semaCap w) x (pathCap w) (pathInfoCh w) (pathClosed w) (errorCh w) (doneClosed w) (tasks w) (monitoring w) (hadErrors w) (inProgress w) (dirExcluder w) (fileExcluder w) (processing w) (cancelled w) (visits w) (published w).
Definition set_pathCap (w : walker) x : walker :=
  mkWalker (root w) (walkFunc w) (errorWriter w) (semaCap w) (workerSema w) x (pathInfoCh w) (pathClosed w) (errorCh w) (doneClosed w) (tasks w) (monitoring w) (hadErrors w) (inProgress w) (dirExcluder w) (fileExcluder w) (processing w) (cancelled w) (visits w) (published w).
Definition set_pathInfoCh (w : walker) x : walker :=
  mkWalker (root w) (walkFunc w) (errorWriter w) (semaCap w) (workerSema w) (pathCap w) x (pathClosed w) (errorCh w) (doneClosed w) (tasks w) (monitoring w) (hadErrors w) (inProgress w) (dirExcluder w) (fileExcluder w) (processing w) (cancelled w) (visits w) (published w).
Definition set_pathClosed (w : walker) x : walker :=
  mkWalker (root w) (walkFunc w) (errorWriter w) (semaCap w) (workerSema w) (pathCap w) (pathInfoCh w) x (errorCh w) (doneClosed w) (tasks w) (monitoring w) (hadErrors w) (inProgress w) (dirExcluder w) (fileExcluder w) (processing w) (cancelled w) (visits w) (published w).
Definition set_errorCh (w : walker) x : walker :=
  mkWalker (root w) (walkFunc w) (errorWriter w) (semaCap w) (workerSema w) (pathCap w) (pathInfoCh w) (pathClosed w) x (doneClosed w) (tasks w) (monitoring w) (hadErrors w) (inProgress w) (dirExcluder w) (fileExcluder w) (processing w) (cancelled w) (visits w) (published w).
Definition set_doneClosed (w : walker) x : walker :=
  mkWalker (root w) (walkFunc w) (errorWriter w) (semaCap w) (workerSema w) (pathCap w) (pathInfoCh w) (pathClosed w) (errorCh w) x (tasks w) (monitoring w) (hadErrors w) (inProgress w) (dirExcluder w) (fileExcluder w) (processing w) (cancelled w) (visits w) (published w).
Definition set_tasks (w : walker) x : walker :=
  mkWalker (root w) (walkFunc w) (errorWriter w) (semaCap w) (workerSema w) (pathCap w) (pathInfoCh w) (pathClosed w) (errorCh w) (doneClosed w) x (monitoring w) (hadErrors w) (inProgress w) (dirExcluder w) (fileExcluder w) (processing w) (cancelled w) (visits w) (published w).
Definition set_monitoring (w : walker) x : walker :=
  mkWalker (root w) (walkFunc w) (errorWriter w) (semaCap w) (workerSema w) (pathCap w) (pathInfoCh w) (pathClosed w) (errorCh w) (doneClosed w) (tasks w) x (hadErrors w) (inProgress w) (dirExcluder w) (fileExcluder w) (processing w) (cancelled w) (visits w) (published w).
Definition set_hadErrors (w : walker) x : walker :=
  mkWalker (root w) (walkFunc w) (errorWriter w) (semaCap w) (workerSema w) (pathCap w) (pathInfoCh w) (pathClosed w) (errorCh w) (doneClosed w) (tasks w) (monitoring w) x (inProgress w) (dirExcluder w) (fileExcluder w) (processing w) (cancelled w) (visits w) (published w).
Definition set_inProgress (w : walker) x : walker :=
  mkWalker (root w) (walkFunc w) (errorWriter w) (semaCap w) (workerSema w) (pathCap w) (pathInfoCh w) (pathClosed w) (errorCh w) (doneClosed w) (tasks w) (monitoring w) (hadErrors w) x (dirExcluder w) (fileExcluder w) (processing w) (cancelled w) (visits w) (published w).
Definition set_dirExcluder (w : walker) x : walker :=
  mkWalker (root w) (walkFunc w) (errorWriter w) (semaCap w) (workerSema w) (pathCap w) (pathInfoCh w) (pathClosed w) (errorCh w) (doneClosed w) (tasks w) (monitoring w) (hadErrors w) (inProgress w) x (fileExcluder w) (processing w) (cancelled w) (visits w) (published w).
Definition set_fileExcluder (w : walker) x : walker :=
  mkWalker (root w) (walkFunc w) (errorWriter w) (semaCap w) (workerSema w) (pathCap w) (pathInfoCh w) (pathClosed w) (errorCh w) (doneClosed w) (tasks w) (monitoring w) (hadErrors w) (inProgress w) (dirExcluder w) x (processing w) (cancelled w) (visits w) (published w).
Definition set_processing (w : walker) x : walker :=
  mkWalker (root w) (walkFunc w) (errorWriter w) (semaCap w) (workerSema w) (pathCap w) (pathInfoCh w) (pathClosed w) (errorCh w) (doneClosed w) (tasks w) (monitoring w) (hadErrors w) (inProgress w) (dirExcluder w) (fileExcluder w) x (cancelled w) (visits w) (published w).
Definition set_cancelled (w : walker) x : walker :=
  mkWalker (root w) (walkFunc w) (errorWriter w) (semaCap w) (workerSema w) (pathCap w) (pathInfoCh w) (pathClosed w) (errorCh w) (doneClosed w) (tasks w) (monitoring w) (hadErrors w) (inProgress w) (dirExcluder w) (fileExcluder w) (processing w) x (visits w) (published w).
Definition set_visits (w : walker) x : walker :=
  mkWalker (root w) (walkFunc w) (errorWriter w) (semaCap w) (workerSema w) (pathCap w) (pathInfoCh w) (pathClosed w) (errorCh w) (doneClosed w) (tasks w) (monitoring w) (hadErrors w) (inProgress w) (dirExcluder w) (fileExcluder w) (processing w) (cancelled w) x (published w).
Definition set_published (w : walker) x : walker :=
  mkWalker (root w) (walkFunc w) (errorWriter w) (semaCap w) (workerSema w) (pathCap w) (pathInfoCh w) (pathClosed w) (errorCh w) (doneClosed w) (tasks w) (monitoring w) (hadErrors w) (inProgress w) (dirExcluder w) (fileExcluder w) (processing w) (cancelled w) (visits w) x.

(** ** The default excluders *)

(** [DefaultDirExcluder.Match] (walker_unix.go). *)
Definition DefaultDirExcluder_Match : PathExcluder := fun path =>
  if String.eqb path "/dev" then Some true
  else if String.eqb path "/proc" then Some true
  else Some false.

Fixpoint drop_seps (l : list ascii) : list ascii :=
  match l with
  | c :: l' => if Ascii.eqb c "/"%char then drop_seps l' else l
  | [] => []
  end.

Fixpoint take_nonsep (l : list ascii) : list ascii :=
  match l with
  | c :: l' => if Ascii.eqb c "/"%char then [] else c :: take_nonsep l'
  | [] => []
  end.

(** [filepath.Base] on Unix: "." for the empty path, trailing slashes
    stripped, "/" if only slashes remain, otherwise the last element.
    The characters are scanned from the end (on the reversed list). *)
Definition filepath_Base (path : string) : string :=
  match list_ascii_of_string path with
  | [] => "."%string
  | l =>
      match drop_seps (rev l) with
      | [] => "/"%string
      | r => string_of_list_ascii (rev (take_nonsep r))
      end
  end.

(** [DefaultFileExcluder.Match]. *)
Definition DefaultFileExcluder_Match : PathExcluder := fun path =>
  let filename := filepath_Base path in
  if String.eqb filename ".DS_Store" then Some true
  else Some false.

(** ** Construction and configuration *)

(** [NewConcurrentWalker]: every field at its zero value except the error
    writer (os.Stderr, initially empty here) and the two default excluders.
    The nil [walkFunc] is never called before [StartWalking] sets it. *)
Definition NewConcurrentWalker : walker :=
  mkWalker ""%string (fun _ _ => None) [] 0 0 0 [] false [] false [] false
    false false DefaultDirExcluder_Match DefaultFileExcluder_Match
    false false [] [].

Definition SetDirExcluder (w : walker) (x : PathExcluder) : walker :=
  set_dirExcluder w x.

Definition SetFileExcluder (w : walker) (x : PathExcluder) : walker :=
  set_fileExcluder w x.

(** [HadErrors] *)
Definition HadErrors (w : walker) : bool := hadErrors w.

(** ** StartWalking *)

Inductive start_error : Type :=
| ErrPreviousWalk   (* "the previous walk has not yet been finished" *)
| ErrLstat          (* the error of os.Lstat(root) *)
| ErrGetrlimit.     (* the error of syscall.Getrlimit *)

(** The returned done channel, cancel function ([None] for nil) and error. *)
Definition start_result : Type :=
  (option unit * option unit * option start_error)%type.

(** [min(uint64(1024), rlimit.Cur)] *)
Definition maxActiveWorkers (cur : N) : nat := N.to_nat (N.min 1024 cur).

(** [StartWalking(ctx, root, walkFunc)].  The environment supplies whether
    the parent [ctx] is already done, the result of [os.Lstat(root)] (the
    tree rooted at [root], or [None] on error) and the result of
    [syscall.Getrlimit(RLIMIT_NOFILE)] ([rlimit.Cur], or [None] on error).
    On success the new state holds fresh channels, the root [walk]
    goroutine, the [wg.Wait]/[close] goroutine and the [process]
    goroutine, and the traces start empty.  The code overwrites
    [w.pathInfoCh], [w.errorCh], [w.doneCh] and [w.wg] in place; goroutines
    still running from an earlier walk (one whose [process] returned on a
    cancellation) would go on sending on the new channels and calling
    [wg.Done] on the new WaitGroup.  That mix is not represented: the task
    list is replaced by the root goroutine, which is what the code does
    when the engine is [quiescent], and every theorem below about a
    successful start from an arbitrary walker assumes it where the
    leftover goroutines could matter. *)
Definition StartWalking (w : walker) (parentDone : bool) (r : string)
    (f : WalkDirFunc) (lstat : option fnode) (getrlimit : option N)
    : walker * start_result :=
  if inProgress w then (w, (None, None, Some ErrPreviousWalk))
  else
    let w := set_hadErrors (set_inProgress (set_walkFunc (set_root w r) f) true) false in
    match lstat with
    | None => (w, (None, Some tt, Some ErrLstat))
    | Some info =>
        match getrlimit with
        | None => (w, (None, Some tt, Some ErrGetrlimit))
        | Some cur =>
            let m := maxActiveWorkers cur in
            (mkWalker r f (errorWriter w) m 0 m [] false [] false
               [TWalk [] r (startDirEntry info)] true false true
               (dirExcluder w) (fileExcluder w) true parentDone [] [],
             (Some tt, Some tt, None))
        end
    end.

(** No goroutine of an earlier walk is alive: no [walk] goroutine, no
    [wg.Wait]/[close] goroutine and no [process] goroutine.  This holds
    for [NewConcurrentWalker] and after a completed walk. *)
Definition quiescent (w : walker) : bool :=
  match tasks w with
  | [] => negb (monitoring w) && negb (processing w)
  | _ :: _ => false
  end.

(** ** The steps of a [walk] goroutine *)

(** The beginning of [walk]: [entry.Info()], then the directory or file
    excluder.  [None]: the goroutine returns; [Some t]: it continues at
    [t]. *)
Definition walk_begin (dx fx : PathExcluder) (pos : list nat) (p : string)
    (e : fnode) : option task :=
  if negb (InfoOk e) then Some (TSendErr pos (ErrInfo p))
  else if IsDir e then
    match dx p with
    | None => Some (TSendErr pos (ErrDirExclude p))
    | Some true => None
    | Some false => Some (TPublish pos p e)
    end
  else
    match fx p with
    | None => Some (TSendErr pos (ErrFileExclude p))
    | Some true => None
    | Some false => Some (TPublish pos p e)
    end.

(** After the send on [pathInfoCh]: [if !entry.IsDir() { return }]. *)
Definition after_publish (pos : list nat) (p : string) (e : fnode) : list task :=
  if IsDir e then [TAcquire pos p e] else [].

(** The outcome of [workerReadDir] once its slot is released. *)
Definition after_read (pos : list nat) (p : string) (e : fnode) : task :=
  match read_dir e with
  | None => TSendErr pos (ErrReadDir p)
  | Some cs => TSpawn pos p 0 cs
  end.

Definition opt_list {A} (o : option A) : list A :=
  match o with Some x => [x] | None => [] end.

(** [signalDone] followed by the end of [process]. *)
Definition signalDone (w : walker) : walker :=
  set_processing (set_doneClosed (set_inProgress w false) true) false.

(** [make(chan error, 100)] *)
Definition errorChCap : nat := 100.

(** The completed walk observed by [Wait()], without cancellation. *)
Definition completed (w : walker) : Prop :=
  doneClosed w = true /\ cancelled w = false.

(** An induction principle for [fnode] that goes through the listings. *)
Section FnodeInd.
Variable P : fnode -> Prop.
Hypothesis HFile : forall n ok, P (File n ok).
Hypothesis HDirNone : forall n ok, P (Dir n ok None).
Hypothesis HDirSome : forall n ok cs, Forall P cs -> P (Dir n ok (Some cs)).

Fixpoint fnode_ind' (e : fnode) : P e :=
  match e with
  | File n ok => HFile n ok
  | Dir n ok None => HDirNone n ok
  | Dir n ok (Some cs) =>
      HDirSome n ok cs
        ((fix go (l : list fnode) : Forall P l :=
            match l with
            | [] => Forall_nil P
            | c :: l' => Forall_cons c (fnode_ind' c) (go l')
            end) cs)
  end.
End FnodeInd.

(** A tree in which nothing fails: every [Info()] succeeds and every
    directory can be opened and read. *)
Fixpoint healthy (e : fnode) : bool :=
  match e with
  | File _ ok => ok
  | Dir _ ok (Some cs) => ok && forallb healthy cs
  | Dir _ _ None => false
  end.

(** A tree in which every [Info()] succeeds (directories may still fail
    to be read). *)
Fixpoint infos_ok (e : fnode) : bool :=
  match e with
  | File _ ok => ok
  | Dir _ ok (Some cs) => ok && forallb infos_ok cs
  | Dir _ ok None => ok
  end.

(** A goroutine between the acquire and the release of a slot of
    [workerSemaCh]: directory open through read completion. *)
Definition is_reading (t : task) : bool :=
  match t with TRead _ _ _ => true | _ => false end.

(** ** Concrete inputs used by the examples *)

(** A stand-in for [path.Join] on clean names. *)
Definition join_slash (d n : string) : string := (d ++ "/" ++ n)%string.

Definition never_exclude : PathExcluder := fun _ => Some false.

Definition nil_visitor : WalkDirFunc := fun _ _ => None.

(** A visitor that returns a non-nil error on every call. *)
Definition failing_visitor : WalkDirFunc := fun _ _ => Some "visit failed"%string.

(** A directory named like the Linux device directory, with no entries. *)
Definition dev_tree : fnode := Dir "dev" true (Some []).

(** A directory holding one file. *)
Definition small_tree : fnode := Dir "data" true (Some [File "a" true]).

(** A directory holding one entry whose [Info()] fails. *)
Definition info_fail_tree : fnode := Dir "data" true (Some [File "a" false]).

(** A directory holding two empty subdirectories. *)
Definition two_dirs_tree : fnode :=
  Dir "data" true (Some [Dir "x" true (Some []); Dir "y" true (Some [])]).

(** A directory that can be stat-ed but not read. *)
Definition unreadable_tree : fnode := Dir "data" true None.

(** A fresh walker whose two excluders exclude nothing. *)
Definition walker_ne : walker :=
  SetFileExcluder (SetDirExcluder NewConcurrentWalker never_exclude) never_exclude.

(** The walker right after starting on [small_tree] at "/data". *)
Definition small_start : walker :=
  fst (StartWalking walker_ne false "/data" nil_visitor (Some small_tree) (Some 1024%N)).

(** The walker right after starting on [info_fail_tree] at "/data". *)
Definition info_fail_start : walker :=
  fst (StartWalking walker_ne false "/data" nil_visitor (Some info_fail_tree) (Some 1024%N)).

(** The walker right after starting on [two_dirs_tree] at "/data". *)
Definition two_dirs_start : walker :=
  fst (StartWalking walker_ne false "/data" nil_visitor (Some two_dirs_tree) (Some 1024%N)).

(** A fresh walker right after starting on the unreadable "/data". *)
Definition unreadable_start : walker :=
  fst (StartWalking NewConcurrentWalker false "/data" nil_visitor
         (Some unreadable_tree) (Some 1024%N)).

(** A fresh walker right after starting on "/dev". *)
Definition dev_start : walker :=
  fst (StartWalking NewConcurrentWalker false "/dev" nil_visitor
         (Some dev_tree) (Some 1024%N)).

(** A fresh walker started on [small_tree] with [rlimit.Cur = 1], so that
    [workerSemaCh] and [pathInfoCh] have one slot each. *)
Definition one_slot_start : walker :=
  fst (StartWalking walker_ne false "/data" nil_visitor (Some small_tree) (Some 1%N)).

(** A fresh walker started on [small_tree] with [rlimit.Cur = 0]. *)
Definition zero_limit_start : walker :=
  fst (StartWalking walker_ne false "/data" nil_visitor (Some small_tree) (Some 0%N)).

(** ** The transition system of a walk *)

Section Walk.

(** [path.Join(dir, child.Name())]. *)
Variable path_join : string -> string -> string.

(** One atomic action of one goroutine, or the caller's [cancel()].
    A task is picked anywhere in the goroutine list; [go w.walk(...)]
    appends a new one. *)
Inductive wstep : walker -> walker -> Prop :=
(* walk: entry.Info() and the excluder *)
| step_begin w l1 l2 pos p e :
    tasks w = l1 ++ TWalk pos p e :: l2 ->
    wstep w (set_tasks w
      (l1 ++ opt_list (walk_begin (dirExcluder w) (fileExcluder w) pos p e) ++ l2))
(* walk: w.errorCh <- err; return (wg.Done) *)
| step_send_err w l1 l2 pos err :
    tasks w = l1 ++ TSendErr pos err :: l2 ->
    List.length (errorCh w) < errorChCap ->
    wstep w (set_errorCh (set_tasks w (l1 ++ l2)) (errorCh w ++ [err]))
(* walk: w.pathInfoCh <- pathInfo{...} into the buffer *)
| step_publish w l1 l2 pos p e :
    tasks w = l1 ++ TPublish pos p e :: l2 ->
    List.length (pathInfoCh w) < pathCap w ->
    wstep w (set_published
      (set_pathInfoCh (set_tasks w (l1 ++ after_publish pos p e ++ l2))
         (pathInfoCh w ++ [mkPathInfo p e]))
      (published w ++ [(pos, p)]))
(* walk: the same send on an unbuffered pathInfoCh (capacity 0), received
   at once by process, which calls walkFunc *)
| step_publish_sync w l1 l2 pos p e :
    tasks w = l1 ++ TPublish pos p e :: l2 ->
    pathCap w = 0 ->
    processing w = true ->
    wstep w (set_published
      (set_visits (set_tasks w (l1 ++ after_publish pos p e ++ l2))
         (visits w ++ [p]))
      (published w ++ [(pos, p)]))
(* workerReadDir: workerSemaCh <- struct{}{} *)
| step_acquire w l1 l2 pos p e :
    tasks w = l1 ++ TAcquire pos p e :: l2 ->
    workerSema w < semaCap w ->
    wstep w (set_workerSema (set_tasks w (l1 ++ TRead pos p e :: l2))
      (S (workerSema w)))
(* workerReadDir: open and read, then the deferred <-workerSemaCh *)
| step_read w l1 l2 pos p e n :
    tasks w = l1 ++ TRead pos p e :: l2 ->
    workerSema w = S n ->
    wstep w (set_workerSema (set_tasks w (l1 ++ after_read pos p e :: l2)) n)
(* walk: wg.Add(1); go w.walk(childDir, child) *)
| step_spawn w l1 l2 pos p k c cs :
    tasks w = l1 ++ TSpawn pos p k (c :: cs) :: l2 ->
    wstep w (set_tasks w (l1 ++ TSpawn pos p (S k) cs :: l2 ++
      [TWalk (pos ++ [k]) (path_join p (Name c)) c]))
(* walk: end of the loop; return (wg.Done) *)
| step_spawn_end w l1 l2 pos p k :
    tasks w = l1 ++ TSpawn pos p k [] :: l2 ->
    wstep w (set_tasks w (l1 ++ l2))
(* wg.Wait() returns; close(w.pathInfoCh) *)
| step_close w :
    monitoring w = true ->
    tasks w = [] ->
    wstep w (set_pathClosed (set_monitoring w false) true)
(* process: case <-ctx.Done() *)
| step_recv_done w :
    processing w = true ->
    cancelled w = true ->
    wstep w (signalDone w)
(* process: case info, ok := <-w.pathInfoCh with ok; walkFunc's result is
   discarded *)
| step_recv_path w pi rest :
    processing w = true ->
    pathInfoCh w = pi :: rest ->
    wstep w (set_visits (set_pathInfoCh w rest) (visits w ++ [pi_path pi]))
(* process: the closed and drained pathInfoCh, !ok *)
| step_recv_closed w :
    processing w = true ->
    pathInfoCh w = [] ->
    pathClosed w = true ->
    wstep w (signalDone w)
(* process: case err := <-w.errorCh *)
| step_recv_err w err rest :
    processing w = true ->
    errorCh w = err :: rest ->
    wstep w (set_errorWriter (set_hadErrors (set_errorCh w rest) true)
      (errorWriter w ++ [err]))
(* the caller invokes the returned cancel function *)
| step_cancel w :
    wstep w (set_cancelled w true).

(** Runs: the reflexive-transitive closure of [wstep]. *)
Inductive reach : walker -> walker -> Prop :=
| reach_refl w : reach w w
| reach_step w1 w2 w3 : wstep w1 w2 -> reach w2 w3 -> reach w1 w3.

(** ** Reference walks *)

(** The paths a single goroutine would publish if it ran [walk] on its own,
    recursing into the children one after the other. *)
Fixpoint seq_walk (dx fx : PathExcluder) (p : string) (e : fnode) : list string :=
  match e with
  | File _ ok =>
      if ok then match fx p with Some false => [p] | _ => [] end else []
  | Dir _ ok l =>
      if ok then
        match dx p with
        | Some false =>
            p :: match l with
                 | Some cs =>
                     List.concat (map (fun c => seq_walk dx fx (path_join p (Name c)) c) cs)
                 | None => []
                 end
        | _ => []
        end
      else []
  end.

(** The "standard recursive single-threaded walk" of the specification:
    [filepath.Walk], the reference of the package's test.  Its callback is
    called once for every path it reaches -- with an error when the
    [Lstat] of a listed entry fails, or when a directory cannot be read --
    and it walks the listing of a directory whose [Lstat] succeeded and
    that could be read. *)
Fixpoint standard_walk (p : string) (e : fnode) : list string :=
  match e with
  | File _ _ => [p]
  | Dir _ ok l =>
      p :: if ok then
             match l with
             | Some cs => List.concat (map (fun c => standard_walk (path_join p (Name c)) c) cs)
             | None => []
             end
           else []
  end.

(** [wg.Wait()] has not yet returned exactly when [pathInfoCh] is not
    closed. *)
Definition monitor_inv (w : walker) : Prop :=
  monitoring w = negb (pathClosed w).

Definition children_walk (dx fx : PathExcluder) (p : string) (cs : list fnode) : list string :=
  List.concat (map (fun c => seq_walk dx fx (path_join p (Name c)) c) cs).

Definition read_walk (dx fx : PathExcluder) (p : string) (e : fnode) : list string :=
  match read_dir e with Some cs => children_walk dx fx p cs | None => [] end.

(** The paths a goroutine at a given program point will still publish,
    its descendants included. *)
Definition task_walk (dx fx : PathExcluder) (t : task) : list string :=
  match t with
  | TWalk _ p e => seq_walk dx fx p e
  | TSendErr _ _ => []
  | TPublish _ p e => p :: (if IsDir e then read_walk dx fx p e else [])
  | TAcquire _ p e | TRead _ p e => read_walk dx fx p e
  | TSpawn _ p _ cs => children_walk dx fx p cs
  end.

(** The node at a position of the tree and its path. *)
Fixpoint locate (p : string) (e : fnode) (q : list nat) : option (string * fnode) :=
  match q with
  | [] => Some (p, e)
  | k :: q' =>
      match read_dir e with
      | Some cs =>
          match nth_error cs k with
          | Some c => locate (path_join p (Name c)) c q'
          | None => None
          end
      | None => None
      end
  end.

Definition tasks_walk (dx fx : PathExcluder) (ts : list task) : list string :=
  List.concat (map (task_walk dx fx) ts).

Definition cnt (l : list string) (x : string) : nat := count_occ string_dec l x.

(** What is still to be visited: the paths in [pathInfoCh] and those the
    live goroutines will publish, together with those already visited,
    are the paths of the sequential walk. *)
Definition count_inv (target : list string) (w : walker) : Prop :=
  forall x, cnt (visits w) x + cnt (map pi_path (pathInfoCh w)) x
            + cnt (tasks_walk (dirExcluder w) (fileExcluder w) (tasks w)) x
            = cnt target x.

(** Once [Wait()] returns, either the walk was cancelled or every goroutine
    is gone and [pathInfoCh] is closed and drained. *)
Definition done_inv (w : walker) : Prop :=
  (pathClosed w = true -> tasks w = []) /\
  (doneClosed w = true ->
     cancelled w = true \/ (pathClosed w = true /\ pathInfoCh w = [] /\ tasks w = [])).

(** The slots of [workerSemaCh] held are those of the goroutines reading a
    directory, and never more than its capacity. *)
Definition sema_inv (w : walker) : Prop :=
  workerSema w = List.length (filter is_reading (tasks w)) /\
  workerSema w <= semaCap w.

(** Ordering: a goroutine's parent position is already published. *)
Definition parent_published (pub : list (list nat * string)) (pos : list nat) : Prop :=
  forall q k, pos = q ++ [k] -> exists pd, In (q, pd) pub.

(** Where each goroutine is in the tree rooted at [e0], and what it has
    published. *)
Definition task_pos_inv (r : string) (e0 : fnode) (pub : list (list nat * string))
    (t : task) : Prop :=
  match t with
  | TWalk pos p e | TPublish pos p e =>
      locate r e0 pos = Some (p, e) /\ parent_published pub pos
  | TAcquire pos p e | TRead pos p e =>
      locate r e0 pos = Some (p, e) /\ In (pos, p) pub
  | TSpawn pos p k cs =>
      exists d all, locate r e0 pos = Some (p, d) /\ read_dir d = Some all /\
                    cs = skipn k all /\ In (pos, p) pub
  | TSendErr _ _ => True
  end.

(** Every published child position has its parent published earlier. *)
Definition causal (pub : list (list nat * string)) : Prop :=
  forall i q k p, nth_error pub i = Some (q ++ [k], p) ->
  exists j pd, j < i /\ nth_error pub j = Some (q, pd).

Definition order_inv (r : string) (e0 : fnode) (w : walker) : Prop :=
  Forall (task_pos_inv r e0 (published w)) (tasks w) /\
  causal (published w) /\
  (forall q p, In (q, p) (published w) -> exists d, locate r e0 q = Some (p, d)).

(** The errors a single goroutine would send if it ran [walk] on its own,
    recursing into the children one after the other. *)
Fixpoint seq_errors (dx fx : PathExcluder) (p : string) (e : fnode) : list walk_error :=
  match e with
  | File _ ok =>
      if ok then match fx p with None => [ErrFileExclude p] | Some _ => [] end
      else [ErrInfo p]
  | Dir _ ok l =>
      if ok then
        match dx p with
        | None => [ErrDirExclude p]
        | Some true => []
        | Some false =>
            match l with
            | Some cs =>
                List.concat (map (fun c => seq_errors dx fx (path_join p (Name c)) c) cs)
            | None => [ErrReadDir p]
            end
        end
      else [ErrInfo p]
  end.

Definition children_errors (dx fx : PathExcluder) (p : string) (cs : list fnode)
    : list walk_error :=
  List.concat (map (fun c => seq_errors dx fx (path_join p (Name c)) c) cs).

Definition read_errors (dx fx : PathExcluder) (p : string) (e : fnode) : list walk_error :=
  match read_dir e with Some cs => children_errors dx fx p cs | None => [ErrReadDir p] end.

(** The errors a goroutine at a given program point will still send, its
    descendants included. *)
Definition task_errors (dx fx : PathExcluder) (t : task) : list walk_error :=
  match t with
  | TWalk _ p e => seq_errors dx fx p e
  | TSendErr _ err => [err]
  | TPublish _ p e => if IsDir e then read_errors dx fx p e else []
  | TAcquire _ p e | TRead _ p e => read_errors dx fx p e
  | TSpawn _ p _ cs => children_errors dx fx p cs
  end.

Definition tasks_errors (dx fx : PathExcluder) (ts : list task) : list walk_error :=
  List.concat (map (task_errors dx fx) ts).

Definition ecnt (l : list walk_error) (x : walk_error) : nat :=
  count_occ walk_error_eq_dec l x.

(** The errors printed so far (after the [ew0] printed before the walk),
    those queued in [errorCh] and those the live goroutines will still send
    are the errors of the sequential walk. *)
Definition error_inv (ew0 target : list walk_error) (w : walker) : Prop :=
  forall x, ecnt (errorWriter w) x + ecnt (errorCh w) x
            + ecnt (tasks_errors (dirExcluder w) (fileExcluder w) (tasks w)) x
            = ecnt ew0 x + ecnt target x.

(** [hadErrors] is set exactly when something was printed during the walk. *)
Definition had_inv (ew0 : list walk_error) (w : walker) : Prop :=
  exists printed, errorWriter w = ew0 ++ printed /\
                  (hadErrors w = true <-> printed <> []).

(** [pathInfoCh] is a FIFO queue between the sends and [process]: the
    visited paths followed by the queued ones are the published ones, and
    the buffers stay within their capacities. *)
Definition fifo_inv (w : walker) : Prop :=
  visits w ++ map pi_path (pathInfoCh w) = map snd (published w) /\
  List.length (pathInfoCh w) <= pathCap w /\
  List.length (errorCh w) <= errorChCap.

(** [inProgress] and the [process] goroutine both last until [signalDone]
    closes the done channel. *)
Definition life_inv (w : walker) : Prop :=
  inProgress w = negb (doneClosed w) /\ processing w = negb (doneClosed w).

(** A goroutine blocked on a full channel: a send on [pathInfoCh] or on
    [errorCh] whose buffer is full. *)
Definition blocked_on (w : walker) (t : task) : Prop :=
  match t with
  | TPublish _ _ _ => List.length (pathInfoCh w) = pathCap w
  | TSendErr _ _ => List.length (errorCh w) = errorChCap
  | _ => False
  end.

(** The root goroutine of a walk at one of its first three program points:
    before its excluder, sending its own entry, or waiting for a slot of
    [workerSemaCh]. *)
Definition root_stuck (r : string) (e : fnode) (ts : list task) : Prop :=
  In (TWalk [] r e) ts \/ In (TPublish [] r e) ts \/ In (TAcquire [] r e) ts.

(** A walk whose channels have capacity 0 and whose root goroutine has not
    got past the acquire of a slot. *)
Definition zero_inv (r : string) (e : fnode) (w : walker) : Prop :=
  semaCap w = 0 /\ pathCap w = 0 /\ dirExcluder w r = Some false /\
  root_stuck r e (tasks w) /\ pathClosed w = false /\
  (doneClosed w = true -> cancelled w = true).

(** A goroutine [t] blocked on a full channel once [process] has gone. *)
Definition blocked_inv (t : task) (pc : bool) (w : walker) : Prop :=
  processing w = false /\ In t (tasks w) /\ blocked_on w t /\ pathClosed w = pc.

Arguments cnt : simpl never.
Arguments tasks_walk : simpl never.

(** ** Generic facts about runs *)

Lemma reach_ind_inv (P : walker -> Prop) :
  (forall a b, wstep a b -> P a -> P b) ->
  forall w w', reach w w' -> P w -> P w'.
Proof.
  intros Hpres w w' Hr. induction Hr; intros HP; auto.
  apply IHHr. eapply Hpres; eauto.
Qed.

Lemma reach_trans w1 w2 w3 : reach w1 w2 -> reach w2 w3 -> reach w1 w3.
Proof. induction 1; intros; auto. eapply reach_step; eauto. Qed.

Lemma wstep_static w w' :
  wstep w w' ->
  dirExcluder w' = dirExcluder w /\ fileExcluder w' = fileExcluder w /\
  semaCap w' = semaCap w /\ pathCap w' = pathCap w /\
  root w' = root w /\ walkFunc w' = walkFunc w.
Proof. intros H; inversion H; subst; simpl; repeat split; reflexivity. Qed.

Lemma reach_static w w' :
  reach w w' ->
  dirExcluder w' = dirExcluder w /\ fileExcluder w' = fileExcluder w /\
  semaCap w' = semaCap w /\ pathCap w' = pathCap w /\
  root w' = root w /\ walkFunc w' = walkFunc w.
Proof.
  induction 1 as [|a b c Hs _ IH]; [repeat split|].
  destruct (wstep_static _ _ Hs) as (?&?&?&?&?&?).
  destruct IH as (?&?&?&?&?&?). repeat split; congruence.
Qed.

Lemma app_cons_neq_nil {A} (l1 l2 : list A) (x : A) : l1 ++ x :: l2 <> [].
Proof. destruct l1; discriminate. Qed.

(** A successful [StartWalking] from an idle engine. *)
Lemma StartWalking_ok w pd r f e cur :
  inProgress w = false ->
  StartWalking w pd r f (Some e) (Some cur) =
  (mkWalker r f (errorWriter w) (maxActiveWorkers cur) 0 (maxActiveWorkers cur)
     [] false [] false [TWalk [] r (startDirEntry e)] true false true
     (dirExcluder w) (fileExcluder w) true pd [] [],
   (Some tt, Some tt, None)).
Proof. intros H. unfold StartWalking. rewrite H. reflexivity. Qed.

(** ** Counting lemmas *)

Lemma cnt_app l1 l2 x : cnt (l1 ++ l2) x = cnt l1 x + cnt l2 x.
Proof. apply count_occ_app. Qed.

Lemma cnt_nil x : cnt [] x = 0.
Proof. reflexivity. Qed.

Lemma tasks_walk_app dx fx l1 l2 :
  tasks_walk dx fx (l1 ++ l2) = tasks_walk dx fx l1 ++ tasks_walk dx fx l2.
Proof. unfold tasks_walk. rewrite map_app, concat_app. reflexivity. Qed.

Lemma tasks_walk_cons dx fx t l :
  tasks_walk dx fx (t :: l) = task_walk dx fx t ++ tasks_walk dx fx l.
Proof. reflexivity. Qed.

Lemma tasks_walk_nil dx fx : tasks_walk dx fx [] = [].
Proof. reflexivity. Qed.

Lemma walk_begin_walk dx fx pos p e :
  tasks_walk dx fx (opt_list (walk_begin dx fx pos p e)) = seq_walk dx fx p e.
Proof.
  destruct e as [n [|] | n [|] l]; unfold walk_begin; simpl.
  - destruct (fx p) as [[|]|]; reflexivity.
  - reflexivity.
  - destruct (dx p) as [[|]|]; try reflexivity.
    unfold opt_list. rewrite tasks_walk_cons, tasks_walk_nil, app_nil_r. reflexivity.
  - reflexivity.
Qed.

Lemma after_publish_walk dx fx pos p e :
  tasks_walk dx fx (after_publish pos p e) =
  if IsDir e then read_walk dx fx p e else [].
Proof.
  destruct e; unfold after_publish; simpl; [reflexivity|].
  rewrite tasks_walk_cons, tasks_walk_nil, app_nil_r. reflexivity.
Qed.

Lemma after_read_walk dx fx pos p e :
  task_walk dx fx (after_read pos p e) = read_walk dx fx p e.
Proof. unfold after_read, read_walk. destruct (read_dir e); reflexivity. Qed.

Lemma spawn_walk dx fx pos p k c cs :
  task_walk dx fx (TSpawn pos p k (c :: cs)) =
  seq_walk dx fx (path_join p (Name c)) c ++ task_walk dx fx (TSpawn pos p (S k) cs).
Proof. reflexivity. Qed.

(** ** The completion invariant *)

Lemma done_inv_step w w' : wstep w w' -> done_inv w -> done_inv w'.
Proof.
  intros Hs [Hcl Hdn].
  inversion Hs; subst; unfold done_inv; simpl;
  match goal with
  | Ht : tasks w = _ ++ _ :: _ |- _ =>
      assert (pathClosed w = false) as Hpc
        by (destruct (pathClosed w) eqn:E; [|reflexivity];
            rewrite (Hcl eq_refl) in Ht; exfalso; eapply app_cons_neq_nil; eauto);
      split; [intros ?; congruence
             |intros Hd; destruct (Hdn Hd) as [?|(?&?&?)];
              [left; assumption|congruence]]
  | _ => idtac
  end.
  - (* close *) split; [intros; assumption|]. intros Hd.
    destruct (Hdn Hd) as [?|(?&?&?)]; auto.
  - (* <-ctx.Done() *) split; [assumption|]. intros _. left. assumption.
  - (* a path received *) split; [assumption|]. intros Hd.
    destruct (Hdn Hd) as [?|(?&?&?)]; [left; assumption|congruence].
  - (* pathInfoCh closed *) split; [assumption|]. intros _. right. auto.
  - (* an error received *) split; [assumption|]. intros Hd. auto.
  - (* cancel *) split; [assumption|]. intros _. left. reflexivity.
Qed.

(** ** The counting invariant *)

Ltac cnt_norm :=
  repeat first
    [ rewrite tasks_walk_app in *
    | rewrite tasks_walk_cons in *
    | rewrite tasks_walk_nil in *
    | rewrite map_app in *
    | rewrite cnt_app in *
    | rewrite cnt_nil in * ].

Lemma count_inv_step target w w' :
  wstep w w' -> count_inv target w -> count_inv target w'.
Proof.
  intros Hs Hinv. inversion Hs; subst; unfold count_inv in *; simpl;
    intros x; specialize (Hinv x).
  - rewrite H in Hinv. cnt_norm. rewrite walk_begin_walk. simpl in Hinv. lia.
  - rewrite H in Hinv. cnt_norm. simpl in *. lia.
  - rewrite H in Hinv. cnt_norm. rewrite after_publish_walk. simpl in Hinv.
    change (p :: ?l) with ([p] ++ l) in Hinv. rewrite cnt_app in Hinv.
    simpl. lia.
  - rewrite H in Hinv. cnt_norm. rewrite after_publish_walk. simpl in Hinv.
    change (p :: ?l) with ([p] ++ l) in Hinv. rewrite cnt_app in Hinv. lia.
  - rewrite H in Hinv. cnt_norm. simpl in *. lia.
  - rewrite H in Hinv. cnt_norm. rewrite after_read_walk. simpl in Hinv. lia.
  - rewrite H in Hinv. cnt_norm. rewrite spawn_walk in Hinv. cnt_norm. cbn [task_walk] in *. lia.
  - rewrite H in Hinv. cnt_norm. simpl in Hinv. unfold children_walk in Hinv.
    simpl in Hinv. lia.
  - lia.
  - lia.
  - rewrite H0 in Hinv. cnt_norm.
    change (map pi_path (pi :: rest)) with ([pi_path pi] ++ map pi_path rest) in Hinv.
    rewrite cnt_app in Hinv. lia.
  - lia.
  - lia.
  - lia.
Qed.

(** With predicates that exclude nothing and a tree in which every
    [Info()] succeeds, the sequential walk is [filepath.Walk]'s. *)
Lemma seq_walk_standard dx fx :
  (forall p, dx p = Some false) -> (forall p, fx p = Some false) ->
  forall e p, infos_ok e = true -> seq_walk dx fx p e = standard_walk p e.
Proof.
  intros Hdx Hfx e.
  induction e as [n ok|n ok|n ok cs IH] using fnode_ind'; intros p Hok; simpl in *.
  - rewrite Hfx. subst ok. reflexivity.
  - rewrite Hdx. subst ok. reflexivity.
  - rewrite Hdx. apply andb_prop in Hok. destruct Hok as [-> Hall].
    f_equal. f_equal.
    apply map_ext_in. intros c Hc. rewrite Forall_forall in IH. apply IH; [assumption|].
    rewrite forallb_forall in Hall. apply Hall; assumption.
Qed.

(** The invariants hold right after a successful [StartWalking]. *)
Lemma start_invariants w pd r f e cur w1 res :
  inProgress w = false ->
  StartWalking w pd r f (Some e) (Some cur) = (w1, res) ->
  count_inv (seq_walk (dirExcluder w) (fileExcluder w) r (startDirEntry e)) w1 /\
  done_inv w1 /\
  dirExcluder w1 = dirExcluder w /\ fileExcluder w1 = fileExcluder w.
Proof.
  intros Hip Hsw. rewrite StartWalking_ok in Hsw by assumption.
  injection Hsw as <- <-. split; [|repeat split; simpl; discriminate].
  unfold count_inv; simpl. intros x.
  rewrite tasks_walk_cons, tasks_walk_nil, app_nil_r. reflexivity.
Qed.

(** Every completed, non-cancelled walk visits exactly the paths of the
    sequential walk with the configured excluders. *)
Lemma completed_walk_visits w pd r f e cur w1 res w' :
  inProgress w = false ->
  StartWalking w pd r f (Some e) (Some cur) = (w1, res) ->
  reach w1 w' -> completed w' ->
  Permutation (visits w')
    (seq_walk (dirExcluder w) (fileExcluder w) r (startDirEntry e)).
Proof.
  intros Hip Hsw Hr [Hd Hc].
  destruct (start_invariants _ _ _ _ _ _ _ _ Hip Hsw) as (Hcnt & Hdone & _).
  assert (Hcnt' := reach_ind_inv _ (count_inv_step _) _ _ Hr Hcnt).
  assert (Hdone' := reach_ind_inv _ done_inv_step _ _ Hr Hdone).
  destruct Hdone' as [_ Hdn]. destruct (Hdn Hd) as [?|(_&Hch&Ht)]; [congruence|].
  apply (Permutation_count_occ string_dec). intros x.
  specialize (Hcnt' x). rewrite Hch, Ht in Hcnt'.
  destruct (reach_static _ _ Hr) as (Hdx&Hfx&_).
  destruct (start_invariants _ _ _ _ _ _ _ _ Hip Hsw) as (_&_&Hdx1&Hfx1).
  rewrite tasks_walk_nil in Hcnt'. simpl in Hcnt'. rewrite !cnt_nil in Hcnt'.
  unfold cnt in Hcnt'. lia.
Qed.

(** C1 (amended).  On a walker with no goroutine left from an earlier
    walk, with exclusion predicates that exclude nothing, and on a tree in
    which every [Info()] succeeds, the paths passed to the visit callback
    by a completed, non-cancelled walk are, as a multiset, those visited
    by [filepath.Walk] on the same tree, root included. *)
Theorem walk_visits_complete w pd r f e cur w1 res w' :
  inProgress w = false -> quiescent w = true ->
  (forall p, dirExcluder w p = Some false) ->
  (forall p, fileExcluder w p = Some false) ->
  infos_ok (startDirEntry e) = true ->
  StartWalking w pd r f (Some e) (Some cur) = (w1, res) ->
  reach w1 w' -> completed w' ->
  Permutation (visits w') (standard_walk r (startDirEntry e)).
Proof.
  intros Hip _ Hdx Hfx Hok Hsw Hr Hc.
  rewrite <- (seq_walk_standard (dirExcluder w) (fileExcluder w) Hdx Hfx _ _ Hok).
  eapply completed_walk_visits; eauto.
Qed.

(** C4 (amended).  The root goes through the exclusion predicate that
    applies to it like any other node; when that predicate returns
    [(false, nil)] for the stat-ed root, a completed, non-cancelled walk
    started on a quiescent walker invokes the visit callback for the root
    path. *)
Theorem root_visited_unless_excluded w pd r f e cur w1 res w' :
  inProgress w = false -> quiescent w = true ->
  (if IsDir e then dirExcluder w r else fileExcluder w r) = Some false ->
  StartWalking w pd r f (Some e) (Some cur) = (w1, res) ->
  reach w1 w' -> completed w' ->
  In r (visits w').
Proof.
  intros Hip _ Hex Hsw Hr Hc.
  eapply Permutation_in;
    [symmetry; eapply completed_walk_visits; eauto|].
  destruct e; simpl in *; rewrite Hex; left; reflexivity.
Qed.

(** ** The semaphore invariant *)

Lemma walk_begin_not_reading dx fx pos p e :
  filter is_reading (opt_list (walk_begin dx fx pos p e)) = [].
Proof.
  unfold walk_begin. destruct (negb (InfoOk e)); [reflexivity|].
  destruct (IsDir e); [destruct (dx p) as [[|]|]|destruct (fx p) as [[|]|]];
    reflexivity.
Qed.

Lemma after_publish_not_reading pos p e :
  filter is_reading (after_publish pos p e) = [].
Proof. unfold after_publish. destruct (IsDir e); reflexivity. Qed.

Lemma after_read_not_reading pos p e : is_reading (after_read pos p e) = false.
Proof. unfold after_read. destruct (read_dir e); reflexivity. Qed.

Lemma sema_inv_step w w' : wstep w w' -> sema_inv w -> sema_inv w'.
Proof.
  intros Hs [Heq Hle].
  inversion Hs; subst; unfold sema_inv; simpl; auto;
    match goal with
    | Ht : tasks w = _ |- _ => rewrite Ht in Heq
    | _ => idtac
    end;
    rewrite ?filter_app, ?length_app in *; simpl in *;
    rewrite ?walk_begin_not_reading, ?after_publish_not_reading,
      ?after_read_not_reading in *; simpl in *;
    rewrite ?filter_app, ?length_app in *; simpl in *; try lia.
Qed.

(** C3 (semaphore bound).  Throughout a walk, the capacity of
    [workerSemaCh] is the one computed at the start,
    [min(1024, rlimit.Cur)]; the number of slots held is exactly the number
    of goroutines between the acquire and the end of their directory read,
    whether that read succeeds or fails (so every read releases its slot
    on both exit paths), and it never exceeds the capacity. *)
Theorem read_slots_bounded w cd r f e cur w1 res w' :
  inProgress w = false ->
  StartWalking w cd r f (Some e) (Some cur) = (w1, res) ->
  reach w1 w' ->
  semaCap w' = Nat.min 1024 (N.to_nat cur) /\
  workerSema w' = List.length (filter is_reading (tasks w')) /\
  List.length (filter is_reading (tasks w')) <= semaCap w'.
Proof.
  intros Hip Hsw Hr.
  rewrite StartWalking_ok in Hsw by assumption. injection Hsw as <- <-.
  destruct (reach_static _ _ Hr) as (_&_&Hcap&_).
  assert (Hinv : sema_inv w').
  { apply (reach_ind_inv sema_inv sema_inv_step _ _ Hr).
    unfold sema_inv; simpl. lia. }
  destruct Hinv as [Heq Hle].
  assert (Hm : maxActiveWorkers cur = Nat.min 1024 (N.to_nat cur)).
  { unfold maxActiveWorkers. rewrite N2Nat.inj_min. reflexivity. }
  simpl in Hcap. rewrite Hm in Hcap.
  split; [exact Hcap|]. split; [exact Heq|]. lia.
Qed.

(** ** Exclusion *)

(** C7 (exclusion is silent).  When the entry's information is obtained
    and the applicable exclusion predicate returns [(true, nil)], the
    goroutine's step returns: it is removed, nothing is sent on
    [pathInfoCh] or [errorCh], nothing is printed, [hadErrors] is
    unchanged, no child goroutine is started, and no path of its subtree is
    ever published. *)
Theorem excluded_node_silent w l1 l2 pos p e :
  tasks w = l1 ++ TWalk pos p e :: l2 ->
  InfoOk e = true ->
  (if IsDir e then dirExcluder w p else fileExcluder w p) = Some true ->
  let w' := set_tasks w
              (l1 ++ opt_list (walk_begin (dirExcluder w) (fileExcluder w) pos p e) ++ l2) in
  wstep w w' /\
  tasks w' = l1 ++ l2 /\
  pathInfoCh w' = pathInfoCh w /\ published w' = published w /\
  errorCh w' = errorCh w /\ errorWriter w' = errorWriter w /\
  hadErrors w' = hadErrors w /\
  seq_walk (dirExcluder w) (fileExcluder w) p e = [].
Proof.
  intros Ht Hinfo Hex w'.
  assert (Hb : walk_begin (dirExcluder w) (fileExcluder w) pos p e = None).
  { unfold walk_begin. rewrite Hinfo. simpl. destruct (IsDir e); rewrite Hex; reflexivity. }
  split; [apply step_begin; exact Ht|].
  unfold w'. rewrite Hb. simpl. repeat split; try reflexivity.
  destruct e; simpl in *; subst; rewrite Hex; reflexivity.
Qed.

(** By contrast, an error from the predicate becomes a send on [errorCh]. *)
Lemma excluder_error_reported dx fx pos p e :
  InfoOk e = true ->
  (if IsDir e then dx p else fx p) = None ->
  exists err, walk_begin dx fx pos p e = Some (TSendErr pos err).
Proof.
  intros Hinfo Hex. unfold walk_begin. rewrite Hinfo. simpl.
  destruct (IsDir e); rewrite Hex; eexists; reflexivity.
Qed.

(** ** Publication order *)

Lemma skipn_cons_nth {A} k (l : list A) c cs :
  skipn k l = c :: cs -> nth_error l k = Some c /\ skipn (S k) l = cs.
Proof.
  revert l. induction k as [|k IH]; intros [|x l] H; simpl in *; try discriminate.
  - injection H as -> ->. auto.
  - apply IH. exact H.
Qed.

Lemma locate_app p e q k :
  locate p e (q ++ [k]) =
  match locate p e q with
  | Some (p', d) =>
      match read_dir d with
      | Some cs =>
          match nth_error cs k with
          | Some c => Some (path_join p' (Name c), c)
          | None => None
          end
      | None => None
      end
  | None => None
  end.
Proof.
  revert p e. induction q as [|a q IH]; intros p e; simpl.
  - destruct (read_dir e) as [cs|]; [destruct (nth_error cs k)|]; reflexivity.
  - destruct (read_dir e) as [cs|]; [|reflexivity].
    destruct (nth_error cs a) as [c|]; [apply IH|reflexivity].
Qed.

Lemma Forall_replace {A} (P : A -> Prop) l1 l2 t mid :
  Forall P (l1 ++ t :: l2) -> (P t -> Forall P mid) -> Forall P (l1 ++ mid ++ l2).
Proof.
  rewrite !Forall_app, Forall_cons_iff. intros (H1 & Ht & H2) Hm. auto.
Qed.

Lemma Forall_replace_spawn {A} (P : A -> Prop) l1 l2 t t' n :
  Forall P (l1 ++ t :: l2) -> (P t -> P t' /\ P n) ->
  Forall P (l1 ++ t' :: l2 ++ [n]).
Proof.
  rewrite !Forall_app, !Forall_cons_iff, Forall_app.
  intros (H1 & Ht & H2) Hm. destruct (Hm Ht). repeat split; auto.
Qed.

Lemma task_pos_inv_mono r e0 pub x t :
  task_pos_inv r e0 pub t -> task_pos_inv r e0 (pub ++ x) t.
Proof.
  unfold parent_published.
  destruct t; simpl; try tauto;
    try (intros [Hl Hp]; split; [exact Hl|];
         first [ intros q k Hq; destruct (Hp q k Hq) as [pd Hin];
                 exists pd; apply in_or_app; left; exact Hin
               | apply in_or_app; left; exact Hp ]).
  intros (d & all & H1 & H2 & H3 & H4). exists d, all.
  repeat split; auto. apply in_or_app. left. exact H4.
Qed.

Lemma causal_snoc pub pos p :
  causal pub -> parent_published pub pos -> causal (pub ++ [(pos, p)]).
Proof.
  intros Hc Hpp i q k p' H.
  destruct (Nat.lt_ge_cases i (List.length pub)) as [Hi|Hi].
  - rewrite nth_error_app1 in H by exact Hi.
    destruct (Hc _ _ _ _ H) as (j & pd & Hj & Hn).
    exists j, pd. split; [exact Hj|]. rewrite nth_error_app1 by lia. exact Hn.
  - rewrite nth_error_app2 in H by exact Hi.
    destruct (i - List.length pub) as [|m] eqn:Hm; simpl in H;
      [|destruct m; discriminate].
    injection H as Hpos _.
    destruct (Hpp q k Hpos) as [pd Hin].
    destruct (In_nth_error _ _ Hin) as [j Hj].
    assert (j < List.length pub) by (apply nth_error_Some; congruence).
    exists j, pd. split; [lia|]. rewrite nth_error_app1 by lia. exact Hj.
Qed.

Lemma walk_begin_pos r e0 pub dx fx pos p e :
  task_pos_inv r e0 pub (TWalk pos p e) ->
  Forall (task_pos_inv r e0 pub) (opt_list (walk_begin dx fx pos p e)).
Proof.
  intros H. unfold walk_begin.
  destruct (negb (InfoOk e)); [constructor; [exact I|constructor]|].
  destruct (IsDir e); [destruct (dx p) as [[|]|]|destruct (fx p) as [[|]|]];
    simpl;
    first [ exact (Forall_nil _)
          | constructor; [exact H|exact (Forall_nil _)]
          | constructor; [exact I|exact (Forall_nil _)] ].
Qed.

Lemma published_snoc_located r e0 pub pos p e :
  (forall q p0, In (q, p0) pub -> exists d, locate r e0 q = Some (p0, d)) ->
  locate r e0 pos = Some (p, e) ->
  forall q p0, In (q, p0) (pub ++ [(pos, p)]) -> exists d, locate r e0 q = Some (p0, d).
Proof.
  intros Hl Hpos q p0 Hin. apply in_app_or in Hin. destruct Hin as [Hin|[Heq|[]]].
  - apply Hl. exact Hin.
  - injection Heq as -> ->. exists e. exact Hpos.
Qed.

Lemma order_inv_step r e0 w w' : wstep w w' -> order_inv r e0 w -> order_inv r e0 w'.
Proof.
  intros Hs (Hf & Hc & Hl).
  inversion Hs; subst; unfold order_inv; simpl;
    match goal with
    | Ht : tasks w = _ ++ _ :: _ |- _ => rewrite Ht in Hf
    | _ => idtac
    end.
  - (* begin *)
    split; [|split; assumption].
    eapply Forall_replace; [exact Hf|]. apply walk_begin_pos.
  - (* send error *)
    split; [|split; assumption].
    change (l1 ++ l2) with (l1 ++ [] ++ l2).
    eapply Forall_replace; [exact Hf|]. intros _. constructor.
  - (* publish *)
    assert (Ht : task_pos_inv r e0 (published w) (TPublish pos p e))
      by (rewrite Forall_app, Forall_cons_iff in Hf; tauto).
    destruct Ht as [Hloc Hpp].
    split; [|split].
    + apply (Forall_impl _ (task_pos_inv_mono r e0 (published w) [(pos, p)])) in Hf.
      eapply Forall_replace; [exact Hf|]. intros _.
      unfold after_publish. destruct (IsDir e); [|constructor].
      constructor; [|constructor]. simpl. split; [exact Hloc|].
      apply in_or_app. right. left. reflexivity.
    + apply causal_snoc; assumption.
    + eapply published_snoc_located; eassumption.
  - (* publish, unbuffered *)
    assert (Ht : task_pos_inv r e0 (published w) (TPublish pos p e))
      by (rewrite Forall_app, Forall_cons_iff in Hf; tauto).
    destruct Ht as [Hloc Hpp].
    split; [|split].
    + apply (Forall_impl _ (task_pos_inv_mono r e0 (published w) [(pos, p)])) in Hf.
      eapply Forall_replace; [exact Hf|]. intros _.
      unfold after_publish. destruct (IsDir e); [|constructor].
      constructor; [|constructor]. simpl. split; [exact Hloc|].
      apply in_or_app. right. left. reflexivity.
    + apply causal_snoc; assumption.
    + eapply published_snoc_located; eassumption.
  - (* acquire *)
    split; [|split; assumption].
    change (l1 ++ TRead pos p e :: l2) with (l1 ++ [TRead pos p e] ++ l2).
    eapply Forall_replace; [exact Hf|]. intros Ht. constructor; [exact Ht|constructor].
  - (* read *)
    split; [|split; assumption].
    change (l1 ++ after_read pos p e :: l2) with (l1 ++ [after_read pos p e] ++ l2).
    eapply Forall_replace; [exact Hf|]. intros [Hloc Hin].
    constructor; [|constructor]. unfold after_read.
    destruct (read_dir e) as [cs|] eqn:Hrd; simpl; [|exact I].
    exists e, cs. repeat split; assumption.
  - (* spawn *)
    split; [|split; assumption].
    eapply Forall_replace_spawn; [exact Hf|].
    intros (d & all & Hloc & Hrd & Hsk & Hin).
    destruct (skipn_cons_nth _ _ _ _ (eq_sym Hsk)) as [Hnth Hsk'].
    split.
    + exists d, all. repeat split; auto.
    + simpl. split.
      * rewrite locate_app, Hloc, Hrd, Hnth. reflexivity.
      * intros q k' Hq. apply app_inj_tail in Hq. destruct Hq as [<- _].
        exists p. exact Hin.
  - (* end of the loop *)
    split; [|split; assumption].
    change (l1 ++ l2) with (l1 ++ [] ++ l2).
    eapply Forall_replace; [exact Hf|]. intros _. constructor.
  - split; [|split]; assumption.
  - split; [|split]; assumption.
  - split; [|split]; assumption.
  - split; [|split]; assumption.
  - split; [|split]; assumption.
  - split; [|split]; assumption.
Qed.

(** C8 (causal order).  In every run, whenever the entry at the position
    of the [k]-th child of a node is sent on [pathInfoCh], the entry of that
    node (a directory whose listing has that child) was sent earlier; the
    child's path is [path.Join] of the parent's path and the child's name.
    Nothing is said about siblings. *)
Theorem parent_published_before_child w cd r f e cur w1 res w' :
  inProgress w = false ->
  StartWalking w cd r f (Some e) (Some cur) = (w1, res) ->
  reach w1 w' ->
  forall i q k p, nth_error (published w') i = Some (q ++ [k], p) ->
  exists j pd d cs c,
    j < i /\ nth_error (published w') j = Some (q, pd) /\
    locate r (startDirEntry e) q = Some (pd, d) /\
    read_dir d = Some cs /\ nth_error cs k = Some c /\
    p = path_join pd (Name c).
Proof.
  intros Hip Hsw Hr i q k p Hi.
  rewrite StartWalking_ok in Hsw by assumption. injection Hsw as <- <-.
  assert (Hinv : order_inv r (startDirEntry e) w').
  { apply (reach_ind_inv _ (order_inv_step r (startDirEntry e)) _ _ Hr).
    split; [|split].
    - constructor; [|constructor]. simpl. split; [reflexivity|].
      intros q' k' Hq. destruct q'; discriminate.
    - intros i' q' k' p' Hn. destruct i'; discriminate.
    - intros q' p' [] . }
  destruct Hinv as (_ & Hc & Hl).
  destruct (Hc _ _ _ _ Hi) as (j & pd & Hj & Hn).
  destruct (Hl _ _ (nth_error_In _ _ Hn)) as [d Hd].
  destruct (Hl _ _ (nth_error_In _ _ Hi)) as [c' Hc'].
  rewrite locate_app, Hd in Hc'.
  destruct (read_dir d) as [cs|] eqn:Hrd; [|discriminate].
  destruct (nth_error cs k) as [c|] eqn:Hnth; [|discriminate].
  injection Hc' as Hp _.
  exists j, pd, d, cs, c. repeat split; auto.
Qed.

(** ** The visitor's result *)

Lemma wstep_walkFunc g w w' :
  wstep w w' -> wstep (set_walkFunc w g) (set_walkFunc w' g).
Proof.
  intros Hs; inversion Hs; subst.
  - exact (step_begin (set_walkFunc w g) l1 l2 pos p e H).
  - exact (step_send_err (set_walkFunc w g) l1 l2 pos err H H0).
  - exact (step_publish (set_walkFunc w g) l1 l2 pos p e H H0).
  - exact (step_publish_sync (set_walkFunc w g) l1 l2 pos p e H H0 H1).
  - exact (step_acquire (set_walkFunc w g) l1 l2 pos p e H H0).
  - exact (step_read (set_walkFunc w g) l1 l2 pos p e n H H0).
  - exact (step_spawn (set_walkFunc w g) l1 l2 pos p k c cs H).
  - exact (step_spawn_end (set_walkFunc w g) l1 l2 pos p k H).
  - exact (step_close (set_walkFunc w g) H H0).
  - exact (step_recv_done (set_walkFunc w g) H H0).
  - exact (step_recv_path (set_walkFunc w g) pi rest H H0).
  - exact (step_recv_closed (set_walkFunc w g) H H0 H1).
  - exact (step_recv_err (set_walkFunc w g) err rest H H0).
  - exact (step_cancel (set_walkFunc w g)).
Qed.

(** C9 (the visitor's error is discarded).  Every step, hence every run,
    is the same whatever the visit callback returns; in particular the
    step that hands a received path to the callback changes neither
    [hadErrors] nor the error writer nor [errorCh], and leaves [process]
    running and the cancellation untouched. *)
Theorem visitor_result_discarded :
  (forall g w w', reach w w' -> reach (set_walkFunc w g) (set_walkFunc w' g)) /\
  (forall w pi rest,
     processing w = true -> pathInfoCh w = pi :: rest ->
     let w' := set_visits (set_pathInfoCh w rest) (visits w ++ [pi_path pi]) in
     wstep w w' /\ visits w' = visits w ++ [pi_path pi] /\
     hadErrors w' = hadErrors w /\ errorWriter w' = errorWriter w /\
     errorCh w' = errorCh w /\ processing w' = true /\
     cancelled w' = cancelled w).
Proof.
  split.
  - intros g w w' Hr. induction Hr as [w|a b c Hs _ IH].
    + apply reach_refl.
    + eapply reach_step; [apply wstep_walkFunc; exact Hs|exact IH].
  - intros w pi rest Hp Hch w'.
    split; [apply step_recv_path; assumption|].
    unfold w'; simpl. repeat split; auto.
Qed.


(** ** Error accounting *)

Lemma ecnt_app l1 l2 x : ecnt (l1 ++ l2) x = ecnt l1 x + ecnt l2 x.
Proof. apply count_occ_app. Qed.

Lemma ecnt_nil x : ecnt [] x = 0.
Proof. reflexivity. Qed.

Lemma tasks_errors_app dx fx l1 l2 :
  tasks_errors dx fx (l1 ++ l2) = tasks_errors dx fx l1 ++ tasks_errors dx fx l2.
Proof. unfold tasks_errors. rewrite map_app, concat_app. reflexivity. Qed.

Lemma tasks_errors_cons dx fx t l :
  tasks_errors dx fx (t :: l) = task_errors dx fx t ++ tasks_errors dx fx l.
Proof. reflexivity. Qed.

Lemma tasks_errors_nil dx fx : tasks_errors dx fx [] = [].
Proof. reflexivity. Qed.

Lemma walk_begin_errors dx fx pos p e :
  tasks_errors dx fx (opt_list (walk_begin dx fx pos p e)) = seq_errors dx fx p e.
Proof.
  destruct e as [n [|] | n [|] l]; unfold walk_begin; simpl.
  - destruct (fx p) as [[|]|]; reflexivity.
  - reflexivity.
  - destruct (dx p) as [[|]|]; try reflexivity.
    unfold opt_list. rewrite tasks_errors_cons, tasks_errors_nil, app_nil_r.
    simpl. unfold read_errors. simpl. destruct l; reflexivity.
  - reflexivity.
Qed.

Lemma after_publish_errors dx fx pos p e :
  tasks_errors dx fx (after_publish pos p e) =
  if IsDir e then read_errors dx fx p e else [].
Proof.
  destruct e; unfold after_publish; simpl; [reflexivity|].
  rewrite tasks_errors_cons, tasks_errors_nil, app_nil_r. reflexivity.
Qed.

Lemma after_read_errors dx fx pos p e :
  task_errors dx fx (after_read pos p e) = read_errors dx fx p e.
Proof. unfold after_read, read_errors. destruct (read_dir e); reflexivity. Qed.

Lemma spawn_errors dx fx pos p k c cs :
  task_errors dx fx (TSpawn pos p k (c :: cs)) =
  seq_errors dx fx (path_join p (Name c)) c ++ task_errors dx fx (TSpawn pos p (S k) cs).
Proof. reflexivity. Qed.

Ltac ecnt_norm :=
  repeat first
    [ rewrite tasks_errors_app in *
    | rewrite tasks_errors_cons in *
    | rewrite tasks_errors_nil in *
    | rewrite ecnt_app in *
    | rewrite ecnt_nil in * ].

Lemma error_inv_step ew0 target w w' :
  wstep w w' -> error_inv ew0 target w -> error_inv ew0 target w'.
Proof.
  intros Hs Hinv. inversion Hs; subst; unfold error_inv in *; simpl;
    intros x; specialize (Hinv x).
  - rewrite H in Hinv. ecnt_norm. rewrite walk_begin_errors. simpl in Hinv. lia.
  - rewrite H in Hinv. ecnt_norm. simpl in *. lia.
  - rewrite H in Hinv. ecnt_norm. rewrite after_publish_errors. simpl in Hinv. lia.
  - rewrite H in Hinv. ecnt_norm. rewrite after_publish_errors. simpl in Hinv. lia.
  - rewrite H in Hinv. ecnt_norm. simpl in *. lia.
  - rewrite H in Hinv. ecnt_norm. rewrite after_read_errors. simpl in Hinv. lia.
  - rewrite H in Hinv. ecnt_norm. rewrite spawn_errors in Hinv. ecnt_norm.
    cbn [task_errors] in *. lia.
  - rewrite H in Hinv. ecnt_norm. simpl in Hinv. unfold children_errors in Hinv.
    simpl in Hinv. lia.
  - lia.
  - lia.
  - lia.
  - lia.
  - rewrite H0 in Hinv. ecnt_norm.
    change (err :: rest) with ([err] ++ rest) in Hinv. rewrite ecnt_app in Hinv. lia.
  - lia.
Qed.

Lemma had_inv_step ew0 w w' : wstep w w' -> had_inv ew0 w -> had_inv ew0 w'.
Proof.
  intros Hs (printed & Hew & Hh).
  inversion Hs; subst; simpl; try (exists printed; split; assumption).
  exists (printed ++ [err]). split.
  - rewrite Hew, app_assoc. reflexivity.
  - split; [intros _|reflexivity]. intros Hn. apply app_eq_nil in Hn.
    destruct Hn as [_ Hn]. discriminate.
Qed.

Lemma fifo_inv_step w w' : wstep w w' -> fifo_inv w -> fifo_inv w'.
Proof.
  intros Hs (Hq & Hpl & Hel).
  inversion Hs; subst; unfold fifo_inv, errorChCap in *; simpl;
    (split; [|split]); try assumption;
    rewrite ?length_app, ?map_app; simpl; try lia.
  - rewrite app_assoc, Hq. reflexivity.
  - assert (Hnil : pathInfoCh w = [])
      by (destruct (pathInfoCh w); [reflexivity|simpl in Hpl; lia]).
    rewrite Hnil in Hq |- *. simpl in Hq |- *. rewrite app_nil_r in Hq.
    rewrite app_nil_r, Hq. reflexivity.
  - rewrite H0 in Hq. simpl in Hq. rewrite <- app_assoc. exact Hq.
  - rewrite H0 in Hpl. simpl in Hpl. lia.
  - rewrite H0 in Hel. simpl in Hel. lia.
Qed.

Lemma life_inv_step w w' : wstep w w' -> life_inv w -> life_inv w'.
Proof.
  intros Hs [Hi Hp]. inversion Hs; subst; unfold life_inv; simpl; auto.
Qed.

(** The invariants of this part hold right after a successful
    [StartWalking]. *)
Lemma start_invariants2 w pd r f e cur w1 res :
  inProgress w = false ->
  StartWalking w pd r f (Some e) (Some cur) = (w1, res) ->
  error_inv (errorWriter w)
    (seq_errors (dirExcluder w) (fileExcluder w) r (startDirEntry e)) w1 /\
  had_inv (errorWriter w) w1 /\ fifo_inv w1 /\ life_inv w1 /\
  pathCap w1 = maxActiveWorkers cur /\ semaCap w1 = maxActiveWorkers cur.
Proof.
  intros Hip Hsw. rewrite StartWalking_ok in Hsw by assumption.
  injection Hsw as <- <-. repeat split.
  - unfold error_inv; simpl. intros x.
    rewrite tasks_errors_cons, tasks_errors_nil, app_nil_r. simpl. lia.
  - exists []. rewrite app_nil_r. split; [reflexivity|].
    split; [discriminate|]. intros H; exfalso; apply H; reflexivity.
  - simpl. lia.
  - simpl. unfold errorChCap. lia.
Qed.

(** A run from a successful start keeps all the invariants of this part. *)
Lemma run_invariants2 w pd r f e cur w1 res w' :
  inProgress w = false ->
  StartWalking w pd r f (Some e) (Some cur) = (w1, res) ->
  reach w1 w' ->
  error_inv (errorWriter w)
    (seq_errors (dirExcluder w) (fileExcluder w) r (startDirEntry e)) w' /\
  had_inv (errorWriter w) w' /\ fifo_inv w' /\ life_inv w' /\
  pathCap w' = maxActiveWorkers cur.
Proof.
  intros Hip Hsw Hr.
  destruct (start_invariants2 _ _ _ _ _ _ _ _ Hip Hsw) as (He & Hh & Hf & Hl & Hc & _).
  destruct (reach_static _ _ Hr) as (_&_&_&Hpc&_).
  split; [|split; [|split; [|split]]].
  - exact (reach_ind_inv _ (error_inv_step _ _) _ _ Hr He).
  - exact (reach_ind_inv _ (had_inv_step _) _ _ Hr Hh).
  - exact (reach_ind_inv _ fifo_inv_step _ _ Hr Hf).
  - exact (reach_ind_inv _ life_inv_step _ _ Hr Hl).
  - congruence.
Qed.


(** The ordering invariant holds right after a successful [StartWalking]. *)
Lemma order_inv_start w pd r f e cur w1 res :
  inProgress w = false ->
  StartWalking w pd r f (Some e) (Some cur) = (w1, res) ->
  order_inv r (startDirEntry e) w1.
Proof.
  intros Hip Hsw. rewrite StartWalking_ok in Hsw by assumption.
  injection Hsw as <- <-. split; [|split].
  - constructor; [|constructor]. simpl. split; [reflexivity|].
    intros q' k' Hq. destruct q'; discriminate.
  - intros i' q' k' p' Hn. destruct i'; discriminate.
  - intros q' p' [].
Qed.

Lemma ecnt_zero_nil l : (forall x, ecnt l x = 0) -> l = [].
Proof.
  destruct l as [|a l]; [reflexivity|]. intros H. specialize (H a).
  unfold ecnt in H. simpl in H. destruct (walk_error_eq_dec a a); [discriminate|congruence].
Qed.

Lemma prefix_nth_error {A B} (v rest : list A) (pub : list B) (g : B -> A) i :
  v ++ rest = map g pub -> i < List.length v ->
  exists b, nth_error pub i = Some b /\ nth_error v i = Some (g b).
Proof.
  intros Hq Hi.
  assert (Hm : nth_error (map g pub) i = nth_error v i)
    by (rewrite <- Hq; apply nth_error_app1; exact Hi).
  rewrite nth_error_map in Hm.
  destruct (nth_error pub i) as [b|] eqn:Hb; simpl in Hm.
  - exists b. split; [reflexivity|symmetry; exact Hm].
  - symmetry in Hm. apply nth_error_None in Hm. lia.
Qed.


Lemma healthy_seq_errors dx fx :
  (forall p, dx p <> None) -> (forall p, fx p <> None) ->
  forall e p, healthy e = true -> seq_errors dx fx p e = [].
Proof.
  intros Hdx Hfx e.
  induction e as [n ok|n ok|n ok cs IH] using fnode_ind'; intros p Hh; simpl in *.
  - subst ok. destruct (fx p) eqn:E; [reflexivity|exfalso; exact (Hfx p E)].
  - discriminate.
  - apply andb_prop in Hh. destruct Hh as [-> Hall].
    destruct (dx p) as [[|]|] eqn:E; [reflexivity| |exfalso; exact (Hdx p E)].
    induction cs as [|c cs IHcs]; [reflexivity|].
    simpl in Hall. apply andb_prop in Hall. destruct Hall as [Hc Hall].
    inversion IH as [|? ? IHc IHr]; subst.
    simpl. rewrite (IHc _ Hc). simpl. apply IHcs; assumption.
Qed.

Lemma healthy_startDirEntry e : healthy e = true -> healthy (startDirEntry e) = true.
Proof.
  destruct e as [n ok|n ok [cs|]]; simpl; intros H; auto.
  apply andb_prop in H. destruct H as [_ H]. exact H.
Qed.

(** Delivery in send order.  In every run from a successful
    [StartWalking], the paths handed to the visit callback, followed by
    those still buffered in [pathInfoCh], are exactly the paths sent on
    [pathInfoCh], in the order they were sent: the callback is called once
    per send, in send order, and only on sent entries.  [pathInfoCh] never
    buffers more than [min(1024, rlimit.Cur)] entries and [errorCh] never
    more than 100. *)
Theorem visits_in_send_order w pd r f e cur w1 res w' :
  inProgress w = false ->
  StartWalking w pd r f (Some e) (Some cur) = (w1, res) ->
  reach w1 w' ->
  visits w' ++ map pi_path (pathInfoCh w') = map snd (published w') /\
  List.length (pathInfoCh w') <= maxActiveWorkers cur /\
  List.length (errorCh w') <= errorChCap.
Proof.
  intros Hip Hsw Hr.
  destruct (run_invariants2 _ _ _ _ _ _ _ _ _ Hip Hsw Hr) as (_&_&(Hq&Hpl&Hel)&_&Hc).
  rewrite Hc in Hpl. auto.
Qed.

(** Partial walks are sound.  At every point of every run from a
    quiescent walker, also a cancelled one, no path has been handed to the visit callback more
    often than the sequential walk with the configured excluders visits
    it; in particular every visited path is one the sequential walk
    visits. *)
Theorem visits_within_seq_walk w pd r f e cur w1 res w' :
  inProgress w = false -> quiescent w = true ->
  StartWalking w pd r f (Some e) (Some cur) = (w1, res) ->
  reach w1 w' ->
  forall x, cnt (visits w') x <=
            cnt (seq_walk (dirExcluder w) (fileExcluder w) r (startDirEntry e)) x.
Proof.
  intros Hip _ Hsw Hr x.
  destruct (start_invariants _ _ _ _ _ _ _ _ Hip Hsw) as (Hcnt & _).
  assert (Hcnt' := reach_ind_inv _ (count_inv_step _) _ _ Hr Hcnt).
  specialize (Hcnt' x). lia.
Qed.

(** Visits follow the tree.  In every run from a quiescent walker, the
    [i]-th path handed to the
    visit callback is the path of the [i]-th entry sent on [pathInfoCh],
    the path of a node of the tree at some position [q]; and when that
    node is a child (of the node at [q']), the callback was handed the
    path of its parent directory at an earlier call [j < i]. *)
Theorem visits_follow_tree w pd r f e cur w1 res w' :
  inProgress w = false -> quiescent w = true ->
  StartWalking w pd r f (Some e) (Some cur) = (w1, res) ->
  reach w1 w' ->
  forall i p, nth_error (visits w') i = Some p ->
  exists q d,
    nth_error (published w') i = Some (q, p) /\
    locate r (startDirEntry e) q = Some (p, d) /\
    forall q' k, q = q' ++ [k] ->
      exists j pp, j < i /\ nth_error (visits w') j = Some pp /\
                   nth_error (published w') j = Some (q', pp).
Proof.
  intros Hip _ Hsw Hr i p Hi.
  destruct (run_invariants2 _ _ _ _ _ _ _ _ _ Hip Hsw Hr) as (_&_&(Hq&_)&_).
  assert (Ho := reach_ind_inv _ (order_inv_step r (startDirEntry e)) _ _ Hr
                  (order_inv_start _ _ _ _ _ _ _ _ Hip Hsw)).
  destruct Ho as (_ & Hc & Hl).
  assert (Hlen : i < List.length (visits w'))
    by (apply nth_error_Some; congruence).
  destruct (prefix_nth_error _ _ _ _ _ Hq Hlen) as ([q p'] & Hpub & Hv).
  rewrite Hi in Hv. injection Hv as <-. simpl.
  destruct (Hl _ _ (nth_error_In _ _ Hpub)) as [d Hd].
  exists q, d. split; [exact Hpub|]. split; [exact Hd|].
  intros q' k ->.
  destruct (Hc _ _ _ _ Hpub) as (j & pp & Hj & Hpj).
  destruct (prefix_nth_error _ _ _ _ _ Hq (Nat.lt_trans _ _ _ Hj Hlen))
    as ([q2 p2] & Hpub2 & Hv2).
  rewrite Hpj in Hpub2. injection Hpub2 as <- <-.
  exists j, pp. auto.
Qed.



(** [HadErrors()] reports printing.  In every run from a successful
    [StartWalking], the error writer holds what it held before the walk
    followed by the errors printed by [process], and [HadErrors()] is true
    exactly when at least one error has been printed during this walk. *)
Theorem HadErrors_iff_printed w pd r f e cur w1 res w' :
  inProgress w = false ->
  StartWalking w pd r f (Some e) (Some cur) = (w1, res) ->
  reach w1 w' ->
  exists printed, errorWriter w' = errorWriter w ++ printed /\
                  (HadErrors w' = true <-> printed <> []).
Proof.
  intros Hip Hsw Hr.
  destruct (run_invariants2 _ _ _ _ _ _ _ _ _ Hip Hsw Hr) as (_&Hh&_).
  exact Hh.
Qed.

(** Reported errors are real.  At every point of every run from a
    quiescent walker, the errors
    printed during the walk together with those queued in [errorCh] are,
    as a multiset, contained in the failures the sequential walk meets
    ([seq_errors]): an [Info()] failure for a node, an error of the
    directory or file predicate, or a failed directory read, each for a
    node reached without exclusion. *)
Theorem reported_errors_sound w pd r f e cur w1 res w' :
  inProgress w = false -> quiescent w = true ->
  StartWalking w pd r f (Some e) (Some cur) = (w1, res) ->
  reach w1 w' ->
  exists printed, errorWriter w' = errorWriter w ++ printed /\
    forall x, ecnt printed x + ecnt (errorCh w') x <=
              ecnt (seq_errors (dirExcluder w) (fileExcluder w) r (startDirEntry e)) x.
Proof.
  intros Hip _ Hsw Hr.
  destruct (run_invariants2 _ _ _ _ _ _ _ _ _ Hip Hsw Hr)
    as (He&(printed&Hew&_)&_).
  exists printed. split; [exact Hew|]. intros x.
  specialize (He x). rewrite Hew, ecnt_app in He. lia.
Qed.

(** Error accounting of a completed walk.  When [Wait()] returns from a
    non-cancelled walk started on a quiescent walker, the errors printed during the walk followed by
    those left unread in [errorCh] are, up to order, exactly the failures
    of the sequential walk: none is reported twice and none is lost
    before reaching [errorCh]. *)
Theorem completed_errors_accounted w pd r f e cur w1 res w' :
  inProgress w = false -> quiescent w = true ->
  StartWalking w pd r f (Some e) (Some cur) = (w1, res) ->
  reach w1 w' -> completed w' ->
  exists printed, errorWriter w' = errorWriter w ++ printed /\
    Permutation (printed ++ errorCh w')
      (seq_errors (dirExcluder w) (fileExcluder w) r (startDirEntry e)).
Proof.
  intros Hip _ Hsw Hr [Hd Hc].
  destruct (run_invariants2 _ _ _ _ _ _ _ _ _ Hip Hsw Hr)
    as (He&(printed&Hew&_)&_).
  destruct (start_invariants _ _ _ _ _ _ _ _ Hip Hsw) as (_ & Hdone & _).
  destruct (reach_ind_inv _ done_inv_step _ _ Hr Hdone) as [_ Hdn].
  destruct (Hdn Hd) as [?|(_&_&Ht)]; [congruence|].
  exists printed. split; [exact Hew|].
  apply (Permutation_count_occ walk_error_eq_dec). intros x.
  specialize (He x). rewrite Hew, Ht, ecnt_app in He.
  rewrite tasks_errors_nil, ecnt_nil in He.
  change (count_occ walk_error_eq_dec (printed ++ errorCh w') x =
          ecnt (seq_errors (dirExcluder w) (fileExcluder w) r (startDirEntry e)) x).
  fold (ecnt (printed ++ errorCh w') x). rewrite ecnt_app. lia.
Qed.

(** No failure, no error.  When every [Info()] of the tree succeeds, every
    directory can be read and the two exclusion predicates never return
    an error, then at every point of every run from a quiescent walker
    [HadErrors()] is false,
    nothing has been printed to the error writer and [errorCh] is
    empty. *)
Theorem healthy_tree_no_errors w pd r f e cur w1 res w' :
  inProgress w = false -> quiescent w = true ->
  healthy e = true ->
  (forall p, dirExcluder w p <> None) ->
  (forall p, fileExcluder w p <> None) ->
  StartWalking w pd r f (Some e) (Some cur) = (w1, res) ->
  reach w1 w' ->
  HadErrors w' = false /\ errorWriter w' = errorWriter w /\ errorCh w' = [].
Proof.
  intros Hip _ Hh Hdx Hfx Hsw Hr.
  destruct (run_invariants2 _ _ _ _ _ _ _ _ _ Hip Hsw Hr)
    as (He&(printed&Hew&Hhad)&_).
  rewrite (healthy_seq_errors _ _ Hdx Hfx _ _ (healthy_startDirEntry _ Hh)) in He.
  assert (Hp : printed = []).
  { apply ecnt_zero_nil. intros x. specialize (He x).
    rewrite Hew, ecnt_app, ecnt_nil in He. lia. }
  assert (Hch : errorCh w' = []).
  { apply ecnt_zero_nil. intros x. specialize (He x).
    rewrite Hew, ecnt_app, ecnt_nil in He. lia. }
  subst printed. rewrite app_nil_r in Hew.
  split; [|split; assumption].
  unfold HadErrors. destruct (hadErrors w') eqn:E; [|reflexivity].
  exfalso. apply (proj1 Hhad eq_refl). reflexivity.
Qed.

Lemma monitor_inv_step w w' : wstep w w' -> monitor_inv w -> monitor_inv w'.
Proof. intros Hs H. inversion Hs; subst; unfold monitor_inv in *; simpl; auto. Qed.

(** A completed walk leaves nothing behind.  When [Wait()] returns from a
    non-cancelled walk started on a quiescent walker, every [walk]
    goroutine has returned, the [wg.Wait]/[close] goroutine has closed
    [pathInfoCh] and ended, [process] has returned and [inProgress] is
    false: the walker is quiescent again. *)
Theorem completed_walk_quiescent w pd r f e cur w1 res w' :
  inProgress w = false -> quiescent w = true ->
  StartWalking w pd r f (Some e) (Some cur) = (w1, res) ->
  reach w1 w' -> completed w' ->
  quiescent w' = true /\ pathClosed w' = true /\ inProgress w' = false.
Proof.
  intros Hip _ Hsw Hr [Hd Hc].
  destruct (run_invariants2 _ _ _ _ _ _ _ _ _ Hip Hsw Hr) as (_&_&_&(Hl&Hp)&_).
  destruct (start_invariants _ _ _ _ _ _ _ _ Hip Hsw) as (_ & Hdone & _).
  destruct (reach_ind_inv _ done_inv_step _ _ Hr Hdone) as [_ Hdn].
  destruct (Hdn Hd) as [?|(Hpc&_&Ht)]; [congruence|].
  assert (Hm : monitor_inv w').
  { apply (reach_ind_inv _ monitor_inv_step _ _ Hr).
    rewrite StartWalking_ok in Hsw by assumption. injection Hsw as <- _.
    reflexivity. }
  unfold monitor_inv in Hm. rewrite Hd in Hl, Hp. simpl in Hl, Hp.
  unfold quiescent. rewrite Ht, Hm, Hpc, Hp. auto.
Qed.

(** ** Blocked goroutines *)

Lemma in_pick {A} (t x : A) l1 l2 : In t (l1 ++ x :: l2) -> t = x \/ In t (l1 ++ l2).
Proof.
  rewrite !in_app_iff. simpl. intros [H|[H|H]]; auto.
Qed.

Ltac kept :=
  repeat first [ rewrite in_app_iff in * | progress simpl in * ]; tauto.

Ltac pick_task Hin :=
  match goal with
  | Ht : tasks ?w = _ ++ _ :: _ |- _ =>
      rewrite Ht in Hin; apply in_pick in Hin;
      let Heq := fresh "Heq" in
      destruct Hin as [Heq|Hin]; [try discriminate Heq|]
  | _ => idtac
  end.

Lemma zero_inv_step r e w w' :
  IsDir e = true -> InfoOk e = true ->
  wstep w w' -> zero_inv r e w -> zero_inv r e w'.
Proof.
  intros HD HI Hs (Hsc & Hpc & Hdx & Hin & Hcl & Hdc).
  inversion Hs; subst;
    destruct Hin as [Hin|[Hin|Hin]]; pick_task Hin.
  all: try (exfalso; lia).
  all: try (match goal with
            | Heq : TWalk _ _ _ = TWalk _ _ _ |- _ =>
                injection Heq as <- <- <-; unfold walk_begin; rewrite HI, HD, Hdx
            end).
  all: try (match goal with
            | Heq : TPublish _ _ _ = TPublish _ _ _ |- _ =>
                injection Heq as <- <- <-; unfold after_publish; rewrite HD
            end).
  all: try (match goal with
            | Ht : tasks ?w = [] |- _ => rewrite Ht in *; simpl in *; tauto
            end).
  all: unfold zero_inv, root_stuck in *; simpl.
  all: repeat split; try assumption; try kept; try congruence.
Qed.

(** Zero open files allowed.  When [rlimit.Cur] is 0, [StartWalking]
    creates [workerSemaCh] (and [pathInfoCh]) with capacity 0.  If the
    root is a directory that its excluder does not exclude, the root
    goroutine blocks forever on [workerSemaCh <- struct{}{}] in
    [workerReadDir]: in every run from a quiescent walker the root
    goroutine is still alive,
    [pathInfoCh] is never closed, and the done channel can only be closed
    by a cancellation. *)
Theorem zero_limit_never_completes w pd r f e w1 res w' :
  inProgress w = false -> quiescent w = true ->
  IsDir e = true ->
  dirExcluder w r = Some false ->
  StartWalking w pd r f (Some e) (Some 0%N) = (w1, res) ->
  reach w1 w' ->
  tasks w' <> [] /\ pathClosed w' = false /\
  (doneClosed w' = true -> cancelled w' = true).
Proof.
  intros Hip _ HD Hdx Hsw Hr.
  rewrite StartWalking_ok in Hsw by assumption. injection Hsw as <- <-.
  assert (HD' : IsDir (startDirEntry e) = true) by (destruct e; exact HD).
  assert (HI' : InfoOk (startDirEntry e) = true) by (destruct e; reflexivity).
  assert (Hz : zero_inv r (startDirEntry e) w').
  { apply (reach_ind_inv _ (fun a b => zero_inv_step r _ a b HD' HI') _ _ Hr).
    unfold zero_inv, root_stuck; simpl.
    repeat split; auto; discriminate. }
  destruct Hz as (_ & _ & _ & Hst & Hcl & Hdc).
  split; [|split; assumption].
  intros Ht. rewrite Ht in Hst. unfold root_stuck in Hst. simpl in Hst. tauto.
Qed.

Lemma blocked_inv_step t pc w w' :
  wstep w w' -> blocked_inv t pc w -> blocked_inv t pc w'.
Proof.
  intros Hs (Hp & Hin & Hb & Hpc).
  destruct t; simpl in Hb; try contradiction;
    inversion Hs; subst; pick_task Hin.
  all: try (exfalso; unfold errorChCap in *; first [lia | congruence]).
  all: try (match goal with
            | Ht : tasks ?w = [] |- _ => rewrite Ht in *; simpl in *; tauto
            end).
  all: unfold blocked_inv, blocked_on; simpl.
  all: repeat split; try assumption; try kept; try congruence;
       rewrite ?length_app; simpl; unfold errorChCap in *; try lia.
Qed.

(** Leaked goroutines.  Once [process] has returned (after a
    cancellation, say), nothing receives from [pathInfoCh] or [errorCh]
    any more: a [walk] goroutine blocked on a send to a full [pathInfoCh],
    or to a full [errorCh], stays blocked in every continuation of the
    run, so [wg.Wait()] never returns and [pathInfoCh] is never closed. *)
Theorem blocked_send_never_returns w t w' :
  processing w = false ->
  In t (tasks w) ->
  blocked_on w t ->
  reach w w' ->
  In t (tasks w') /\ pathClosed w' = pathClosed w /\ processing w' = false.
Proof.
  intros Hp Hin Hb Hr.
  destruct (reach_ind_inv _ (blocked_inv_step t (pathClosed w)) _ _ Hr
              (conj Hp (conj Hin (conj Hb eq_refl)))) as (Hp' & Hin' & _ & Hpc').
  auto.
Qed.

End Walk.

(** ** Runs on concrete inputs *)

Ltac run_step c l :=
  eapply reach_step;
    [eapply c with (l1 := l);
       (reflexivity || (apply Nat.ltb_lt; vm_compute; reflexivity)) |].

Ltac run_step0 c :=
  eapply reach_step;
    [eapply c; (reflexivity || (apply Nat.ltb_lt; vm_compute; reflexivity)) |].

(** C4 (counterexample).  On a fresh walker, whose default directory
    excluder matches "/dev", a walk rooted at the directory "/dev" that can
    be stat-ed completes without visiting the root. *)
Lemma root_excluded_counterexample :
  ~ (forall w',
       reach join_slash dev_start w' ->
       completed w' -> In "/dev"%string (visits w')).
Proof.
  intros H.
  assert (Hrun : exists w',
    reach join_slash dev_start w' /\
    completed w' /\ visits w' = []).
  { eexists. split.
    - unfold dev_start; simpl.
      run_step step_begin (@nil task).
      run_step0 step_close.
      run_step0 step_recv_closed.
      apply reach_refl.
    - split; [split|]; reflexivity. }
  destruct Hrun as (w' & Hr & Hc & Hv).
  specialize (H w' Hr Hc). rewrite Hv in H. exact H.
Qed.

(** C1 (counterexample).  A walker that excludes nothing, started on a
    directory holding one entry whose [Info()] fails: the walk completes
    having visited only the root, while [filepath.Walk] also calls its
    callback for the failing entry. *)
Lemma walk_visits_complete_counterexample :
  ~ (forall w',
       reach join_slash info_fail_start w' -> completed w' ->
       Permutation (visits w') (standard_walk join_slash "/data" (startDirEntry info_fail_tree))).
Proof.
  intros H.
  assert (Hrun : exists w',
    reach join_slash info_fail_start w' /\ completed w' /\
    visits w' = ["/data"%string]).
  { eexists. split.
    - unfold info_fail_start; simpl.
      run_step step_begin (@nil task).
      run_step step_publish (@nil task).
      run_step step_acquire (@nil task).
      eapply reach_step; [eapply step_read with (l1 := []) (n := 0); reflexivity|].
      run_step step_spawn (@nil task).
      run_step step_spawn_end (@nil task).
      run_step step_begin (@nil task).
      run_step step_send_err (@nil task).
      run_step0 step_close.
      run_step0 step_recv_path.
      run_step0 step_recv_closed.
      apply reach_refl.
    - split; [split|]; reflexivity. }
  destruct Hrun as (w' & Hr & Hc & Hv).
  specialize (H w' Hr Hc). rewrite Hv in H.
  apply Permutation_length in H. simpl in H. discriminate.
Qed.

(** A run on [two_dirs_tree] in which both subdirectories are being read
    at the same time, each holding a slot of [workerSemaCh]. *)
Lemma two_reads_run :
  exists w', reach join_slash two_dirs_start w' /\
             List.length (filter is_reading (tasks w')) = 2 /\
             doneClosed w' = false.
Proof.
  eexists. split.
  - unfold two_dirs_start; simpl.
    run_step step_begin (@nil task).
    run_step step_publish (@nil task).
    run_step step_acquire (@nil task).
    eapply reach_step; [eapply step_read with (l1 := []) (n := 0); reflexivity|].
    run_step step_spawn (@nil task).
    run_step step_spawn (@nil task).
    run_step step_spawn_end (@nil task).
    run_step step_begin (@nil task).
    run_step step_publish (@nil task).
    run_step step_acquire (@nil task).
    run_step step_begin [TRead [0] "/data/x" (Dir "x" true (Some []))].
    run_step step_publish [TRead [0] "/data/x" (Dir "x" true (Some []))].
    run_step step_acquire [TRead [0] "/data/x" (Dir "x" true (Some []))].
    apply reach_refl.
  - split; reflexivity.
Qed.

(** A complete run on [small_tree]: the root is published and its listing
    read, the child is spawned and published, both paths are visited, and
    [process] ends on the closed channel. *)
Lemma small_run :
  exists w', reach join_slash small_start w' /\ completed w' /\
             visits w' = ["/data"; "/data/a"]%string /\
             published w' = [([], "/data"); ([0], "/data/a")]%string.
Proof.
  eexists. split.
  - unfold small_start; simpl.
    run_step step_begin (@nil task).
    run_step step_publish (@nil task).
    run_step step_acquire (@nil task).
    eapply reach_step; [eapply step_read with (l1 := []) (n := 0); reflexivity|].
    run_step step_spawn (@nil task).
    run_step step_spawn_end (@nil task).
    run_step step_begin (@nil task).
    run_step step_publish (@nil task).
    run_step0 step_close.
    run_step0 step_recv_path.
    run_step0 step_recv_path.
    run_step0 step_recv_closed.
    apply reach_refl.
  - split; [split|split]; reflexivity.
Qed.

(** C2 (code_bug, at the failing input).  A walk of a root directory that
    can be stat-ed but not read: the root is published and visited, the
    read fails and its error is queued on [errorCh], the last goroutine
    ends so [pathInfoCh] is closed, and [process], offered both the queued
    error and the closed channel by its [select], takes the closed channel
    and exits.  [Wait()] returns from a completed, non-cancelled walk with
    [HadErrors() = false] and the error still in [errorCh], never printed. *)
Theorem unreadable_root_error_dropped :
  exists w', reach join_slash unreadable_start w' /\ completed w' /\
             HadErrors w' = false /\ errorWriter w' = [] /\
             errorCh w' = [ErrReadDir "/data"] /\
             visits w' = ["/data"]%string.
Proof.
  eexists. split.
  - unfold unreadable_start; simpl.
    run_step step_begin (@nil task).
    run_step step_publish (@nil task).
    run_step0 step_recv_path.
    run_step step_acquire (@nil task).
    eapply reach_step; [eapply step_read with (l1 := []) (n := 0); reflexivity|].
    run_step step_send_err (@nil task).
    run_step0 step_close.
    run_step0 step_recv_closed.
    apply reach_refl.
  - repeat split; reflexivity.
Qed.

(** ** StartWalking's failures *)

(** C10.  On a busy engine [StartWalking] returns a nil done channel and a
    nil cancel function and leaves the engine as it was; when [os.Lstat]
    or [Getrlimit] fails it returns a nil done channel with a non-nil
    cancel function. *)
Theorem StartWalking_failure_results w cd r f :
  (inProgress w = true ->
     forall st rl, StartWalking w cd r f st rl = (w, (None, None, Some ErrPreviousWalk))) /\
  (inProgress w = false ->
     forall rl, snd (StartWalking w cd r f None rl) = (None, Some tt, Some ErrLstat)) /\
  (inProgress w = false ->
     forall e, snd (StartWalking w cd r f (Some e) None) = (None, Some tt, Some ErrGetrlimit)).
Proof.
  unfold StartWalking. repeat split; intros H; rewrite H; reflexivity.
Qed.

(** C5 (code_bug, at the failing input).  [StartWalking] on a fresh engine
    with a root that cannot be stat-ed returns its error but leaves
    [inProgress] set, so a following [StartWalking] with a valid root is
    refused as re-entrant; the same happens when [Getrlimit] fails. *)
Theorem failed_start_leaves_engine_busy :
  let w1 := fst (StartWalking NewConcurrentWalker false "/missing" nil_visitor
                   None (Some 1024%N)) in
  let w2 := fst (StartWalking NewConcurrentWalker false "/data" nil_visitor
                   (Some small_tree) None) in
  snd (StartWalking NewConcurrentWalker false "/missing" nil_visitor
         None (Some 1024%N)) = (None, Some tt, Some ErrLstat) /\
  inProgress NewConcurrentWalker = false /\ inProgress w1 = true /\
  snd (StartWalking w1 false "/data" nil_visitor (Some small_tree) (Some 1024%N))
    = (None, None, Some ErrPreviousWalk) /\
  snd (StartWalking NewConcurrentWalker false "/data" nil_visitor
         (Some small_tree) None) = (None, Some tt, Some ErrGetrlimit) /\
  inProgress w2 = true /\
  snd (StartWalking w2 false "/data" nil_visitor (Some small_tree) (Some 1024%N))
    = (None, None, Some ErrPreviousWalk).
Proof. repeat split; reflexivity. Qed.

(** ** The default excluders *)

(** C6 (counterexample).  The default directory excluder of a fresh walker
    excludes "/dev". *)
Lemma default_excluders_counterexample :
  ~ (forall p, dirExcluder NewConcurrentWalker p = Some false /\
               fileExcluder NewConcurrentWalker p = Some false).
Proof.
  intros H. destruct (H "/dev"%string) as [H1 _]. vm_compute in H1. discriminate.
Qed.

(** C6 (amended).  A fresh walker's directory excluder returns
    [(true, nil)] exactly for "/dev" and "/proc" and its file excluder
    exactly for the paths whose [filepath.Base] is ".DS_Store"; both
    return [(false, nil)] on every other path and never an error. *)
Theorem default_excluders p :
  dirExcluder NewConcurrentWalker p =
    Some (String.eqb p "/dev" || String.eqb p "/proc") /\
  fileExcluder NewConcurrentWalker p =
    Some (String.eqb (filepath_Base p) ".DS_Store").
Proof.
  simpl. unfold DefaultDirExcluder_Match, DefaultFileExcluder_Match.
  split.
  - destruct (String.eqb p "/dev"); [reflexivity|].
    destruct (String.eqb p "/proc"); reflexivity.
  - destruct (String.eqb (filepath_Base p) ".DS_Store"); reflexivity.
Qed.

Lemma list_ascii_of_string_app s1 s2 :
  list_ascii_of_string (s1 ++ s2) = list_ascii_of_string s1 ++ list_ascii_of_string s2.
Proof. induction s1 as [|a s1 IH]; simpl; [reflexivity|rewrite IH; reflexivity]. Qed.

Lemma take_nonsep_app l m :
  (forall c, In c l -> c <> "/"%char) -> take_nonsep (l ++ "/"%char :: m) = l.
Proof.
  induction l as [|c l IH]; intros H; simpl.
  - reflexivity.
  - destruct (Ascii.eqb_spec c "/"%char) as [E|E].
    + exfalso. apply (H c); [left; reflexivity|exact E].
    + rewrite IH; [reflexivity|]. intros c' Hc'. apply H. right. exact Hc'.
Qed.

Lemma base_of_list R D :
  R <> [] -> (forall c, In c R -> c <> "/"%char) ->
  match drop_seps (R ++ "/"%char :: D) with
  | [] => "/"%string
  | r => string_of_list_ascii (rev (take_nonsep r))
  end = string_of_list_ascii (rev R).
Proof.
  destruct R as [|c R]; [intros H; exfalso; apply H; reflexivity|]. intros _ H.
  cbn [app drop_seps].
  destruct (Ascii.eqb_spec c "/"%char) as [E|E];
    [exfalso; apply (H c); [left; reflexivity|exact E]|].
  rewrite <- (take_nonsep_app (c :: R) D H). reflexivity.
Qed.

(** [DefaultFileExcluder.Match] on a path built from a directory and a
    name.  For any directory path [d] and any non-empty name [n] without a
    "/", [filepath.Base(d + "/" + n)] is [n], so the default file excluder
    excludes [d/n] exactly when [n] is ".DS_Store", whatever the directory,
    and never returns an error. *)
Theorem DefaultFileExcluder_Match_join d n :
  n <> ""%string ->
  (forall c, In c (list_ascii_of_string n) -> c <> "/"%char) ->
  filepath_Base (d ++ "/" ++ n)%string = n /\
  DefaultFileExcluder_Match (d ++ "/" ++ n)%string = Some (String.eqb n ".DS_Store").
Proof.
  intros Hne Hns.
  assert (Hb : filepath_Base (d ++ "/" ++ n)%string = n).
  { unfold filepath_Base.
    rewrite list_ascii_of_string_app.
    change (list_ascii_of_string ("/" ++ n)%string)
      with ("/"%char :: list_ascii_of_string n).
    assert (Hln : list_ascii_of_string n <> []).
    { intros E. apply Hne. rewrite <- (string_of_list_ascii_of_string n), E. reflexivity. }
    assert (Hrev : rev (list_ascii_of_string d ++ "/"%char :: list_ascii_of_string n) =
                   rev (list_ascii_of_string n) ++ "/"%char :: rev (list_ascii_of_string d)).
    { rewrite rev_app_distr. simpl. rewrite <- app_assoc. reflexivity. }
    destruct (list_ascii_of_string d ++ "/"%char :: list_ascii_of_string n)
      as [|x xs] eqn:Ex.
    - destruct (list_ascii_of_string d); discriminate.
    - rewrite Hrev, base_of_list.
      + rewrite rev_involutive. apply string_of_list_ascii_of_string.
      + intros E. apply Hln. rewrite <- (rev_involutive (list_ascii_of_string n)), E.
        reflexivity.
      + intros c Hc. apply Hns. apply in_rev. exact Hc. }
  split; [exact Hb|]. unfold DefaultFileExcluder_Match. rewrite Hb.
  destruct (String.eqb n ".DS_Store"); reflexivity.
Qed.

Example default_file_excluder_examples :
  fileExcluder NewConcurrentWalker "/home/u/.DS_Store"%string = Some true /\
  fileExcluder NewConcurrentWalker "/home/u/.DS_Store/"%string = Some true /\
  fileExcluder NewConcurrentWalker "/home/u/a.DS_Store"%string = Some false /\
  dirExcluder NewConcurrentWalker "/proc"%string = Some true /\
  dirExcluder NewConcurrentWalker "/proc/1"%string = Some false.
Proof. repeat split; vm_compute; reflexivity. Qed.

(** ** Witnesses: the theorems applied on concrete inputs *)

Lemma walk_visits_complete_witness :
  exists w', reach join_slash small_start w' /\ completed w' /\
    Permutation (visits w') (standard_walk join_slash "/data" (startDirEntry small_tree)).
Proof.
  destruct small_run as (w' & Hr & Hc & _).
  exists w'. split; [exact Hr|]. split; [exact Hc|].
  apply (walk_visits_complete join_slash walker_ne false "/data" nil_visitor
           small_tree 1024%N small_start (Some tt, Some tt, None) w');
    [reflexivity|reflexivity|intros; reflexivity|intros; reflexivity|reflexivity
    |reflexivity|exact Hr|exact Hc].
Defined.

(** Two directory reads in progress at once. *)
Lemma read_slots_bounded_witness :
  exists w', reach join_slash two_dirs_start w' /\
    List.length (filter is_reading (tasks w')) = 2 /\
    semaCap w' = Nat.min 1024 (N.to_nat 1024) /\
    workerSema w' = List.length (filter is_reading (tasks w')) /\
    List.length (filter is_reading (tasks w')) <= semaCap w'.
Proof.
  destruct two_reads_run as (w' & Hr & H2 & _).
  exists w'. split; [exact Hr|]. split; [exact H2|].
  apply (read_slots_bounded join_slash walker_ne false "/data" nil_visitor
           two_dirs_tree 1024%N two_dirs_start (Some tt, Some tt, None) w');
    [reflexivity|reflexivity|exact Hr].
Defined.

Lemma root_visited_unless_excluded_witness :
  exists w', reach join_slash small_start w' /\ completed w' /\ In "/data"%string (visits w').
Proof.
  destruct small_run as (w' & Hr & Hc & _).
  exists w'. split; [exact Hr|]. split; [exact Hc|].
  apply (root_visited_unless_excluded join_slash walker_ne false "/data" nil_visitor
           small_tree 1024%N small_start (Some tt, Some tt, None) w');
    [reflexivity|reflexivity|reflexivity|reflexivity|exact Hr|exact Hc].
Defined.

Lemma excluded_node_silent_witness :
  let w' := set_tasks dev_start
              ([] ++ opt_list (walk_begin (dirExcluder dev_start) (fileExcluder dev_start)
                                 [] "/dev" (startDirEntry dev_tree)) ++ []) in
  wstep join_slash dev_start w' /\ tasks w' = [] /\
  pathInfoCh w' = pathInfoCh dev_start /\ published w' = published dev_start /\
  errorCh w' = errorCh dev_start /\ errorWriter w' = errorWriter dev_start /\
  hadErrors w' = hadErrors dev_start /\
  seq_walk join_slash (dirExcluder dev_start) (fileExcluder dev_start) "/dev"
    (startDirEntry dev_tree) = [].
Proof.
  apply (excluded_node_silent join_slash dev_start [] [] [] "/dev" (startDirEntry dev_tree));
    reflexivity.
Defined.

Lemma parent_published_before_child_witness :
  exists w', reach join_slash small_start w' /\
    exists j pd d cs c,
      j < 1 /\ nth_error (published w') j = Some ([], pd) /\
      locate join_slash "/data" (startDirEntry small_tree) [] = Some (pd, d) /\
      read_dir d = Some cs /\ nth_error cs 0 = Some c /\
      "/data/a"%string = join_slash pd (Name c).
Proof.
  destruct small_run as (w' & Hr & _ & _ & Hp).
  exists w'. split; [exact Hr|].
  apply (parent_published_before_child join_slash walker_ne false "/data" nil_visitor
           small_tree 1024%N small_start (Some tt, Some tt, None) w'
           eq_refl eq_refl Hr 1 [] 0 "/data/a"%string).
  rewrite Hp. reflexivity.
Defined.

Lemma visitor_result_discarded_witness :
  let w := set_pathInfoCh (set_walkFunc small_start failing_visitor)
             [mkPathInfo "/data" small_tree] in
  let w' := set_visits (set_pathInfoCh w []) (visits w ++ ["/data"%string]) in
  reach join_slash (set_walkFunc small_start failing_visitor)
    (set_walkFunc small_start failing_visitor) /\
  (wstep join_slash w w' /\ visits w' = visits w ++ ["/data"%string] /\
   hadErrors w' = hadErrors w /\ errorWriter w' = errorWriter w /\
   errorCh w' = errorCh w /\ processing w' = true /\ cancelled w' = cancelled w).
Proof.
  destruct (visitor_result_discarded join_slash) as [H1 H2]. split.
  - apply (H1 failing_visitor small_start small_start). apply reach_refl.
  - apply (H2 _ (mkPathInfo "/data" small_tree) []); reflexivity.
Defined.

Lemma StartWalking_failure_results_witness :
  StartWalking small_start false "/other" nil_visitor (Some small_tree) (Some 1024%N)
    = (small_start, (None, None, Some ErrPreviousWalk)) /\
  snd (StartWalking NewConcurrentWalker false "/missing" nil_visitor None (Some 1024%N))
    = (None, Some tt, Some ErrLstat) /\
  snd (StartWalking NewConcurrentWalker false "/data" nil_visitor (Some small_tree) None)
    = (None, Some tt, Some ErrGetrlimit).
Proof.
  split; [|split].
  - apply (proj1 (StartWalking_failure_results small_start false "/other" nil_visitor));
      reflexivity.
  - apply (proj1 (proj2 (StartWalking_failure_results NewConcurrentWalker false
                           "/missing" nil_visitor))); reflexivity.
  - apply (proj2 (proj2 (StartWalking_failure_results NewConcurrentWalker false
                           "/data" nil_visitor))); reflexivity.
Defined.

Lemma visits_in_send_order_witness :
  exists w', reach join_slash small_start w' /\
    visits w' ++ map pi_path (pathInfoCh w') = map snd (published w') /\
    List.length (pathInfoCh w') <= maxActiveWorkers 1024 /\
    List.length (errorCh w') <= errorChCap.
Proof.
  destruct small_run as (w' & Hr & _).
  exists w'. split; [exact Hr|].
  apply (visits_in_send_order join_slash walker_ne false "/data" nil_visitor
           small_tree 1024%N small_start (Some tt, Some tt, None) w');
    [reflexivity|reflexivity|exact Hr].
Defined.

Lemma visits_within_seq_walk_witness :
  exists w', reach join_slash small_start w' /\
    cnt (visits w') "/data/a"%string <=
    cnt (seq_walk join_slash never_exclude never_exclude "/data" (startDirEntry small_tree))
        "/data/a"%string.
Proof.
  destruct small_run as (w' & Hr & _).
  exists w'. split; [exact Hr|].
  apply (visits_within_seq_walk join_slash walker_ne false "/data" nil_visitor
           small_tree 1024%N small_start (Some tt, Some tt, None) w');
    [reflexivity|reflexivity|reflexivity|exact Hr].
Defined.

Lemma visits_follow_tree_witness :
  exists w', reach join_slash small_start w' /\
  exists q d,
    nth_error (published w') 1 = Some (q, "/data/a"%string) /\
    locate join_slash "/data" (startDirEntry small_tree) q = Some ("/data/a"%string, d) /\
    forall q' k, q = q' ++ [k] ->
      exists j pp, j < 1 /\ nth_error (visits w') j = Some pp /\
                   nth_error (published w') j = Some (q', pp).
Proof.
  destruct small_run as (w' & Hr & _ & Hv & _).
  exists w'. split; [exact Hr|].
  apply (visits_follow_tree join_slash walker_ne false "/data" nil_visitor
           small_tree 1024%N small_start (Some tt, Some tt, None) w'
           eq_refl eq_refl eq_refl Hr 1 "/data/a"%string).
  rewrite Hv. reflexivity.
Defined.



(** A run on the unreadable root in which [process] receives and prints
    the read error. *)
Lemma unreadable_printed_run :
  exists w', reach join_slash unreadable_start w' /\
             errorWriter w' = [ErrReadDir "/data"] /\ errorCh w' = [].
Proof.
  eexists. split; [|split].
  - unfold unreadable_start; simpl.
    run_step step_begin (@nil task).
    run_step step_publish (@nil task).
    run_step0 step_recv_path.
    run_step step_acquire (@nil task).
    eapply reach_step; [eapply step_read with (l1 := []) (n := 0); reflexivity|].
    run_step step_send_err (@nil task).
    run_step0 step_recv_err.
    apply reach_refl.
  - reflexivity.
  - reflexivity.
Qed.

(** A complete run on the unreadable root in which [process] prints the
    read error before it sees the closed [pathInfoCh]. *)
Lemma unreadable_completed_run :
  exists w', reach join_slash unreadable_start w' /\ completed w' /\
             errorWriter w' = [ErrReadDir "/data"] /\ errorCh w' = [].
Proof.
  eexists. split.
  - unfold unreadable_start; simpl.
    run_step step_begin (@nil task).
    run_step step_publish (@nil task).
    run_step0 step_recv_path.
    run_step step_acquire (@nil task).
    eapply reach_step; [eapply step_read with (l1 := []) (n := 0); reflexivity|].
    run_step step_send_err (@nil task).
    run_step0 step_recv_err.
    run_step0 step_close.
    run_step0 step_recv_closed.
    apply reach_refl.
  - split; [split|split]; reflexivity.
Qed.

Lemma HadErrors_iff_printed_witness :
  exists w', reach join_slash unreadable_start w' /\
  exists printed, errorWriter w' = errorWriter NewConcurrentWalker ++ printed /\
                  (HadErrors w' = true <-> printed <> []).
Proof.
  destruct unreadable_printed_run as (w' & Hr & _).
  exists w'. split; [exact Hr|].
  apply (HadErrors_iff_printed join_slash NewConcurrentWalker false "/data" nil_visitor
           unreadable_tree 1024%N unreadable_start (Some tt, Some tt, None) w');
    [reflexivity|reflexivity|exact Hr].
Defined.

Lemma reported_errors_sound_witness :
  exists w', reach join_slash unreadable_start w' /\
  exists printed, errorWriter w' = errorWriter NewConcurrentWalker ++ printed /\
    forall x, ecnt printed x + ecnt (errorCh w') x <=
              ecnt (seq_errors join_slash DefaultDirExcluder_Match DefaultFileExcluder_Match
                      "/data" (startDirEntry unreadable_tree)) x.
Proof.
  destruct unreadable_printed_run as (w' & Hr & _).
  exists w'. split; [exact Hr|].
  apply (reported_errors_sound join_slash NewConcurrentWalker false "/data" nil_visitor
           unreadable_tree 1024%N unreadable_start (Some tt, Some tt, None) w');
    [reflexivity|reflexivity|reflexivity|exact Hr].
Defined.

(** The completed walk of the unreadable root, with its read error
    printed. *)
Lemma completed_errors_accounted_witness :
  exists w', reach join_slash unreadable_start w' /\ completed w' /\
    errorWriter w' = [ErrReadDir "/data"] /\
  exists printed, errorWriter w' = errorWriter NewConcurrentWalker ++ printed /\
    Permutation (printed ++ errorCh w')
      (seq_errors join_slash DefaultDirExcluder_Match DefaultFileExcluder_Match
         "/data" (startDirEntry unreadable_tree)).
Proof.
  destruct unreadable_completed_run as (w' & Hr & Hc & He & _).
  exists w'. split; [exact Hr|]. split; [exact Hc|]. split; [exact He|].
  apply (completed_errors_accounted join_slash NewConcurrentWalker false "/data" nil_visitor
           unreadable_tree 1024%N unreadable_start (Some tt, Some tt, None) w');
    [reflexivity|reflexivity|reflexivity|exact Hr|exact Hc].
Defined.

Lemma healthy_tree_no_errors_witness :
  exists w', reach join_slash small_start w' /\
    HadErrors w' = false /\ errorWriter w' = errorWriter walker_ne /\ errorCh w' = [].
Proof.
  destruct small_run as (w' & Hr & _).
  exists w'. split; [exact Hr|].
  apply (healthy_tree_no_errors join_slash walker_ne false "/data" nil_visitor
           small_tree 1024%N small_start (Some tt, Some tt, None) w');
    [reflexivity|reflexivity|reflexivity|intros p; discriminate|intros p; discriminate
    |reflexivity|exact Hr].
Defined.

(** The root's entry is handed over synchronously to [process] and the
    root goroutine then waits for a slot that does not exist. *)
Lemma zero_limit_never_completes_witness :
  exists w', reach join_slash zero_limit_start w' /\
    visits w' = ["/data"%string] /\
    tasks w' = [TAcquire [] "/data" (startDirEntry small_tree)] /\
    tasks w' <> [] /\ pathClosed w' = false /\
    (doneClosed w' = true -> cancelled w' = true).
Proof.
  assert (Hrun : exists w', reach join_slash zero_limit_start w' /\
            visits w' = ["/data"%string] /\
            tasks w' = [TAcquire [] "/data" (startDirEntry small_tree)]).
  { eexists. split; [|split].
    - unfold zero_limit_start; simpl.
      run_step step_begin (@nil task).
      run_step step_publish_sync (@nil task).
      apply reach_refl.
    - reflexivity.
    - reflexivity. }
  destruct Hrun as (w' & Hr & Hv & Ht).
  exists w'. split; [exact Hr|]. split; [exact Hv|]. split; [exact Ht|].
  apply (zero_limit_never_completes join_slash walker_ne false "/data" nil_visitor
           small_tree zero_limit_start (Some tt, Some tt, None) w');
    [reflexivity|reflexivity|reflexivity|reflexivity|reflexivity|exact Hr].
Defined.

Lemma completed_walk_quiescent_witness :
  exists w', reach join_slash small_start w' /\ completed w' /\
    quiescent w' = true /\ pathClosed w' = true /\ inProgress w' = false.
Proof.
  destruct small_run as (w' & Hr & Hc & _).
  exists w'. split; [exact Hr|]. split; [exact Hc|].
  apply (completed_walk_quiescent join_slash walker_ne false "/data" nil_visitor
           small_tree 1024%N small_start (Some tt, Some tt, None) w');
    [reflexivity|reflexivity|reflexivity|exact Hr|exact Hc].
Defined.

(** With one slot, the root's entry fills [pathInfoCh]; the child's
    goroutine then blocks on its send, and the caller cancels before
    [process] receives anything. *)
Lemma blocked_send_never_returns_witness :
  exists w, reach join_slash one_slot_start w /\
    forall w', reach join_slash w w' ->
      In (TPublish [0] "/data/a" (File "a" true)) (tasks w') /\
      pathClosed w' = pathClosed w /\ processing w' = false.
Proof.
  eexists. split.
  - unfold one_slot_start; simpl.
    run_step step_begin (@nil task).
    run_step step_publish (@nil task).
    run_step step_acquire (@nil task).
    eapply reach_step; [eapply step_read with (l1 := []) (n := 0); reflexivity|].
    run_step step_spawn (@nil task).
    run_step step_spawn_end (@nil task).
    run_step step_begin (@nil task).
    run_step0 step_cancel.
    run_step0 step_recv_done.
    apply reach_refl.
  - intros w' Hr.
    apply (blocked_send_never_returns join_slash _ _ w');
      [reflexivity|simpl; left; reflexivity|reflexivity|exact Hr].
Defined.

Lemma DefaultFileExcluder_Match_join_witness :
  filepath_Base ("/home/u" ++ "/" ++ ".DS_Store")%string = ".DS_Store"%string /\
  DefaultFileExcluder_Match ("/home/u" ++ "/" ++ ".DS_Store")%string =
    Some (String.eqb ".DS_Store" ".DS_Store").
Proof.
  apply DefaultFileExcluder_Match_join;
    [discriminate|simpl; intros c Hc; repeat destruct Hc as [<-|Hc]; try discriminate; destruct Hc].
Defined.
